(** * clover: document model, normaliser and index descriptors

    A shallow embedding of three Go packages of the clover document store:
    - [internal]: the reflection-driven normaliser ([Normalize] and its
      helpers [processStructTag], [isEmptyValue], [normalizeStruct],
      [normalizeSlice], [getElemValueAndType], [normalizeMap]);
    - [document]: the [Document] type with [lookupField], [Has], [Get],
      [Set], [Decode], [Encode], [initFields];
    - [index]: [IndexType], [IndexInfo], [indexBase], [CreateBadgerIndex].

    Go's [interface{}] values are modelled by the inductive type [rvalue]
    (a dynamic type together with its data), Go's [(T, error)] results and
    panics by the three-way type [outcome]. *)

From Stdlib Require Import Strings.String Strings.Ascii Strings.Byte List ZArith Bool Lia.
From Stdlib Require Import Floats.SpecFloat.
Import ListNotations.

Local Open Scope string_scope.
Local Open Scope list_scope.

(* ===================================================================== *)
(** * Part I: the program *)
(* ===================================================================== *)

(** ** Kinds, types, errors and results *)

(** [reflect.Kind]. *)
Inductive Kind : Set :=
  | KInvalid | KBool
  | KInt | KInt8 | KInt16 | KInt32 | KInt64
  | KUint | KUint8 | KUint16 | KUint32 | KUint64 | KUintptr
  | KFloat32 | KFloat64 | KComplex64 | KComplex128
  | KArray | KChan | KFunc | KInterface | KMap | KPtr | KSlice
  | KString | KStruct | KUnsafePointer.

Definition Kind_eqb (a b : Kind) : bool :=
  match a, b with
  | KInvalid, KInvalid | KBool, KBool
  | KInt, KInt | KInt8, KInt8 | KInt16, KInt16 | KInt32, KInt32
  | KInt64, KInt64
  | KUint, KUint | KUint8, KUint8 | KUint16, KUint16 | KUint32, KUint32
  | KUint64, KUint64 | KUintptr, KUintptr
  | KFloat32, KFloat32 | KFloat64, KFloat64
  | KComplex64, KComplex64 | KComplex128, KComplex128
  | KArray, KArray | KChan, KChan | KFunc, KFunc
  | KInterface, KInterface | KMap, KMap | KPtr, KPtr | KSlice, KSlice
  | KString, KString | KStruct, KStruct
  | KUnsafePointer, KUnsafePointer => true
  | _, _ => false
  end.

(** Widths of the integer and floating-point types. [W0] is the
    platform-sized [int] / [uint]. *)
Inductive IntSize : Set := W0 | W8 | W16 | W32 | W64.
Inductive FloatSize : Set := F32 | F64.

(** The struct types the normaliser tells apart by identity: [time.Time],
    the package's own [Value], and every other struct type. *)
Inductive StructId : Set :=
  | TimeT
  | ValueT
  | OtherT (name : string).

(** [reflect.Type], as far as the normaliser inspects it: the kind, the
    element type of pointers, slices and arrays, the key type of maps. *)
Inductive rtype : Set :=
  | TBool
  | TInt (w : IntSize)
  | TUint (w : IntSize)
  | TUintptr
  | TFloat (w : FloatSize)
  | TComplex (w : FloatSize)
  | TString
  | TChan
  | TFunc
  | TUnsafePointer
  | TInterface
  | TStruct (id : StructId)
  | TPtr (elem : rtype)
  | TSlice (elem : rtype)
  | TArray (len : nat) (elem : rtype)
  | TMap (key elem : rtype).

Definition KindOf (t : rtype) : Kind :=
  match t with
  | TBool => KBool
  | TInt W0 => KInt | TInt W8 => KInt8 | TInt W16 => KInt16
  | TInt W32 => KInt32 | TInt W64 => KInt64
  | TUint W0 => KUint | TUint W8 => KUint8 | TUint W16 => KUint16
  | TUint W32 => KUint32 | TUint W64 => KUint64
  | TUintptr => KUintptr
  | TFloat F32 => KFloat32 | TFloat F64 => KFloat64
  | TComplex F32 => KComplex64 | TComplex F64 => KComplex128
  | TString => KString
  | TChan => KChan
  | TFunc => KFunc
  | TUnsafePointer => KUnsafePointer
  | TInterface => KInterface
  | TStruct _ => KStruct
  | TPtr _ => KPtr
  | TSlice _ => KSlice
  | TArray _ _ => KArray
  | TMap _ _ => KMap
  end.

(** Go errors, by origin.  [ErrInvalidDtype t] is
    [fmt.Errorf("invalid dtype %s", rType.Name())], [ErrMapKey] is
    ["map key type must be a string"], [ErrUser] an error returned by a
    [MarshalBinary] method, [ErrCodec] an error of the msgpack codec;
    [ErrUnmarshal] and [ErrNormalize] are the two wrappers of
    [initFields]. *)
Inductive error : Set :=
  | ErrInvalidDtype (t : rtype)
  | ErrMapKey
  | ErrUser (msg : string)
  | ErrCodec (msg : string)
  | ErrUnmarshal (e : error)
  | ErrNormalize (e : error).

(** The result of a Go call: a value with a nil error, a non-nil error, or
    a panic. *)
Inductive outcome (A : Type) : Type :=
  | Ok (a : A)
  | Err (e : error)
  | Panic.

Arguments Ok {A} a.
Arguments Err {A} e.
Arguments Panic {A}.

Definition bind {A B : Type} (x : outcome A) (k : A -> outcome B) : outcome B :=
  match x with
  | Ok a => k a
  | Err e => Err e
  | Panic => Panic
  end.

Declare Scope outcome_scope.
Delimit Scope outcome_scope with outcome.
Notation "x <- c ;; k" := (bind c (fun x => k))
  (at level 61, c at next level, right associativity) : outcome_scope.
Local Open Scope outcome_scope.

(* ===================================================================== *)
(** ** Go values *)
(* ===================================================================== *)

(** [reflect.StructField]: [Tag] holds the result of [Tag.Get("clover")],
    [Type_] the declared type of the field. *)
Record StructField : Set := mkField {
  Name : string;
  PkgPath : string;
  Tag : string;
  Anonymous : bool;
  Type_ : rtype
}.

(** What a call of [MarshalBinary] does: it returns [(data, err)] or it
    panics. *)
Inductive callResult : Set :=
  | Returns (data : list byte) (err : option error)
  | Panics.

Unset Elimination Schemes.

(** A Go value together with its dynamic type.

    - [Nil] is the nil interface value (it has no dynamic type).
    - A pointer carries its element type and [None] when it is nil.
    - Slices, arrays and maps carry their static element (and key) type;
      their elements are stored as what [.Interface()] returns for them, so
      an element of an interface-typed container is the dynamic value held
      ([Nil] for a nil interface).  A nil slice or map is not told apart
      from an empty one: the normaliser only reads [Len] and the elements.
    - A map lists its entries in the order [MapKeys] / [range] yields them,
      each key by its [String()] form, the only thing read from a key.
    - A struct lists its fields in declaration order, each with its
      [reflect.StructField].
    - [VMarshaler r v] is the value [v] of a defined type whose method set
      contains [MarshalBinary]; [r] is what calling the method on this
      value does.  It stands for types other than [time.Time], [Value] and
      [*time.Time], which the type switch of [Normalize] handles first. *)
Inductive rvalue : Set :=
  | Nil
  | VBool (b : bool)
  | VInt (w : IntSize) (n : Z)
  | VUint (w : IntSize) (n : Z)
  | VUintptr (n : Z)
  | VFloat (w : FloatSize) (x : spec_float)
  | VComplex (w : FloatSize)
  | VString (s : string)
  | VChan
  | VFunc
  | VUnsafePointer
  | VPtr (elem : rtype) (p : option rvalue)
  | VSlice (elem : rtype) (l : list rvalue)
  | VArray (elem : rtype) (l : list rvalue)
  | VMap (key elem : rtype) (m : list (string * rvalue))
  | VStruct (id : StructId) (fs : list (StructField * rvalue))
  | VMarshaler (r : callResult) (v : rvalue).
Set Elimination Schemes.

(** [map[string]interface{}]: an association list with unique keys, in
    the order in which [range] yields the entries. *)
Definition gomap : Set := list (string * rvalue).

(** The canonical map value [map[string]interface{}]. *)
Definition VMapSI (m : gomap) : rvalue := VMap TString TInterface m.

(** [reflect.TypeOf], for a value that is not the nil interface (for which
    Go has no type: [Normalize] tests for nil before it asks). *)
Fixpoint TypeOf (v : rvalue) : rtype :=
  match v with
  | Nil => TInterface
  | VBool _ => TBool
  | VInt w _ => TInt w
  | VUint w _ => TUint w
  | VUintptr _ => TUintptr
  | VFloat w _ => TFloat w
  | VComplex w => TComplex w
  | VString _ => TString
  | VChan => TChan
  | VFunc => TFunc
  | VUnsafePointer => TUnsafePointer
  | VPtr e _ => TPtr e
  | VSlice e _ => TSlice e
  | VArray e l => TArray (List.length l) e
  | VMap k e _ => TMap k e
  | VStruct id _ => TStruct id
  | VMarshaler _ v => TypeOf v
  end.

(** The data of a value, without the method set of its type. *)
Fixpoint strip (v : rvalue) : rvalue :=
  match v with
  | VMarshaler _ v' => strip v'
  | _ => v
  end.

(** ** Map operations of Go on [gomap] *)

(** [v, ok := m[k]]. *)
Fixpoint mapGet (k : string) (m : gomap) : option rvalue :=
  match m with
  | [] => None
  | (k', v) :: rest => if String.eqb k k' then Some v else mapGet k rest
  end.

(** [m[k] = v]: the entry is replaced where it stands, or added. *)
Fixpoint mapSet (k : string) (v : rvalue) (m : gomap) : gomap :=
  match m with
  | [] => [(k, v)]
  | (k', v') :: rest =>
      if String.eqb k k' then (k', v) :: rest else (k', v') :: mapSet k v rest
  end.

(** [for k, v := range src { m[k] = v }]. *)
Definition mapMerge (src m : gomap) : gomap :=
  fold_left (fun acc kv => mapSet (fst kv) (snd kv) acc) src m.

(** [strings.Split(s, sep)] for a one-byte separator: never empty, and
    [[""]] for the empty string. *)
Fixpoint Split (sep : ascii) (s : string) : list string :=
  match s with
  | EmptyString => [EmptyString]
  | String c s' =>
      if Ascii.eqb c sep then EmptyString :: Split sep s'
      else match Split sep s' with
           | h :: t => String c h :: t
           | [] => [String c EmptyString]
           end
  end.

(** ** The accessors of [reflect.Value]

    A [reflect.Value] is a static type with data; the functions below take
    the data (and the static type where the code reads the kind).  Called
    on a kind they do not apply to, the Go accessors panic; the normaliser
    guards every call by the kind, and the defaults below are never
    reached on well-typed values. *)

Definition Len (v : rvalue) : nat :=
  match strip v with
  | VString s => String.length s
  | VSlice _ l | VArray _ l => List.length l
  | VMap _ _ m => List.length m
  | _ => 0%nat
  end.

Definition Bool_ (v : rvalue) : bool :=
  match strip v with VBool b => b | _ => false end.

Definition Int_ (v : rvalue) : Z :=
  match strip v with VInt _ n => n | _ => 0%Z end.

Definition Uint_ (v : rvalue) : Z :=
  match strip v with VUint _ n | VUintptr n => n | _ => 0%Z end.

Definition Float_ (v : rvalue) : spec_float :=
  match strip v with VFloat _ x => x | _ => S754_zero false end.

Definition String_ (v : rvalue) : string :=
  match strip v with VString s => s | _ => EmptyString end.

(** [v.IsNil()] for a value of static type [t]: an interface-typed value
    is nil when it holds nothing, a pointer when it points nowhere. *)
Definition IsNil (t : rtype) (v : rvalue) : bool :=
  match KindOf t with
  | KInterface => match v with Nil => true | _ => false end
  | _ => match strip v with VPtr _ None => true | _ => false end
  end.

(** [x == 0] on float64: both zeros, no NaN. *)
Definition float_is_zero (x : spec_float) : bool :=
  match x with S754_zero _ => true | _ => false end.

(** [[]byte] holding [data], as an [interface{}]. *)
Definition bytesValue (data : list byte) : rvalue :=
  VSlice (TUint W8) (map (fun b => VUint W8 (Z.of_N (Byte.to_N b))) data).

(** [time.Time]: three unexported fields. *)
Definition Time (wall ext : Z) : rvalue :=
  VStruct TimeT
    [ (mkField "wall" "time" "" false (TUint W64), VUint W64 wall);
      (mkField "ext" "time" "" false (TInt W64), VInt W64 ext);
      (mkField "loc" "time" "" false (TPtr (TStruct (OtherT "Location"))),
       VPtr (TStruct (OtherT "Location")) None) ].

(** [internal.Value{V: v}]. *)
Definition Value (v : rvalue) : rvalue :=
  VStruct ValueT [ (mkField "V" "" "" false TInterface, v) ].

(** ** Induction on values

    The induction principle of [rvalue], with the hypotheses for the
    values nested in pointers, slices, arrays, maps and structs. *)

Section rvalue_induction.

Variable P : rvalue -> Prop.

Hypothesis HNil : P Nil.
Hypothesis HBool : forall b, P (VBool b).
Hypothesis HInt : forall w n, P (VInt w n).
Hypothesis HUint : forall w n, P (VUint w n).
Hypothesis HUintptr : forall n, P (VUintptr n).
Hypothesis HFloat : forall w x, P (VFloat w x).
Hypothesis HComplex : forall w, P (VComplex w).
Hypothesis HString : forall s, P (VString s).
Hypothesis HChan : P VChan.
Hypothesis HFunc : P VFunc.
Hypothesis HUnsafe : P VUnsafePointer.
Hypothesis HPtrNil : forall e, P (VPtr e None).
Hypothesis HPtr : forall e p, P p -> P (VPtr e (Some p)).
Hypothesis HSlice : forall e l, Forall P l -> P (VSlice e l).
Hypothesis HArray : forall e l, Forall P l -> P (VArray e l).
Hypothesis HMap : forall k e m, Forall (fun kv => P (snd kv)) m -> P (VMap k e m).
Hypothesis HStruct : forall id fs, Forall (fun fv => P (snd fv)) fs -> P (VStruct id fs).
Hypothesis HMarshaler : forall r v, P v -> P (VMarshaler r v).

Fixpoint rvalue_ind (v : rvalue) : P v :=
    match v with
    | Nil => HNil
    | VBool b => HBool b
    | VInt w n => HInt w n
    | VUint w n => HUint w n
    | VUintptr n => HUintptr n
    | VFloat w x => HFloat w x
    | VComplex w => HComplex w
    | VString s => HString s
    | VChan => HChan
    | VFunc => HFunc
    | VUnsafePointer => HUnsafe
    | VPtr e None => HPtrNil e
    | VPtr e (Some p) => HPtr e p (rvalue_ind p)
    | VSlice e l =>
        HSlice e l
          ((fix go (l : list rvalue) : Forall P l :=
              match l with
              | [] => Forall_nil P
              | x :: r => Forall_cons x (rvalue_ind x) (go r)
              end) l)
    | VArray e l =>
        HArray e l
          ((fix go (l : list rvalue) : Forall P l :=
              match l with
              | [] => Forall_nil P
              | x :: r => Forall_cons x (rvalue_ind x) (go r)
              end) l)
    | VMap k e m =>
        HMap k e m
          ((fix go (l : list (string * rvalue))
              : Forall (fun kv => P (snd kv)) l :=
              match l with
              | [] => Forall_nil _
              | x :: r => Forall_cons x (rvalue_ind (snd x)) (go r)
              end) m)
    | VStruct id fs =>
        HStruct id fs
          ((fix go (l : list (StructField * rvalue))
              : Forall (fun fv => P (snd fv)) l :=
              match l with
              | [] => Forall_nil _
              | x :: r => Forall_cons x (rvalue_ind (snd x)) (go r)
              end) fs)
    | VMarshaler r v => HMarshaler r v (rvalue_ind v)
    end.

End rvalue_induction.

(* ===================================================================== *)
(** ** Package [internal]: the normaliser *)
(* ===================================================================== *)

Module internal.

Definition processStructTag (tagStr : string) : string * bool :=
  let tags := Split "," tagStr in
  let name := hd EmptyString tags in
  let omitempty :=
    (1 <? List.length tags)%nat && String.eqb (nth 1 tags EmptyString) "omitempty" in
  (name, omitempty).

Definition isEmptyValue (t : rtype) (v : rvalue) : bool :=
  match KindOf t with
  | KArray | KMap | KSlice | KString => Nat.eqb (Len v) 0
  | KBool => negb (Bool_ v)
  | KInt | KInt8 | KInt16 | KInt32 | KInt64 => Z.eqb (Int_ v) 0
  | KUint | KUint8 | KUint16 | KUint32 | KUint64 | KUintptr => Z.eqb (Uint_ v) 0
  | KFloat32 | KFloat64 => float_is_zero (Float_ v)
  | KInterface | KPtr => IsNil t v
  | _ => false
  end.

(** The loop of [getElemValueAndType]: [self] is the current
    [reflect.Value], [rv] its data, [rt] its static type. *)
Fixpoint derefLoop (rt : rtype) (self rv : rvalue) {struct rv} : rvalue * rtype :=
  match rv with
  | VMarshaler _ v => derefLoop rt self v
  | VPtr _ (Some p) =>
      match rt with
      | TPtr e => derefLoop e p p
      | _ => (self, rt)
      end
  | _ => (self, rt)
  end.

Definition getElemValueAndType (v : rvalue) : rvalue * rtype :=
  derefLoop (TypeOf v) v v.

(** The three loops take the recursive call [Normalize] as a parameter. *)
Section Loops.

Variable Normalize : rvalue -> outcome rvalue.

  (** The body of the [for] loop of [normalizeStruct], over the fields
      from index [i] on, with the map [m] built so far. *)
Fixpoint structLoop (fs : list (StructField * rvalue)) (m : gomap)
    : outcome gomap :=
    match fs with
    | [] => Ok m
    | (fieldType, fieldValue) :: rest =>
        if String.eqb (PkgPath fieldType) "" then
          let cloverTag := Tag fieldType in
          let '(name, omitempty) := processStructTag cloverTag in
          let fieldName :=
            if negb (String.eqb name "") then name else Name fieldType in
          if negb omitempty || negb (isEmptyValue (Type_ fieldType) fieldValue) then
            match Normalize fieldValue with
            | Ok normalized =>
                if negb (Anonymous fieldType) then
                  structLoop rest (mapSet fieldName normalized m)
                else
                  match normalized with
                  | VMap TString TInterface normalizedMap =>
                      structLoop rest (mapMerge normalizedMap m)
                  | _ => structLoop rest (mapSet fieldName normalized m)
                  end
            | Err e => Err e
            | Panic => Panic
            end
          else structLoop rest m
        else structLoop rest m
    end.

Definition normalizeStruct (structValue : rvalue) : outcome rvalue :=
    match strip structValue with
    | VStruct _ fs => m <- structLoop fs [] ;; Ok (VMapSI m)
    | _ => Panic
    end.

Fixpoint sliceLoop (l : list rvalue) : outcome (list rvalue) :=
    match l with
    | [] => Ok []
    | x :: rest =>
        v <- Normalize x ;;
        s <- sliceLoop rest ;;
        Ok (v :: s)
    end.

Definition normalizeSlice (sliceValue : rvalue) : outcome rvalue :=
    match strip sliceValue with
    | VSlice e l | VArray e l =>
        if Kind_eqb (KindOf e) KUint8 then Ok sliceValue
        else s <- sliceLoop l ;; Ok (VSlice TInterface s)
    | _ => Panic
    end.

Fixpoint mapLoop (entries : list (string * rvalue)) (m : gomap)
    : outcome gomap :=
    match entries with
    | [] => Ok m
    | (key, value) :: rest =>
        normalized <- Normalize value ;;
        mapLoop rest (mapSet key normalized m)
    end.

Definition normalizeMap (mapValue : rvalue) : outcome rvalue :=
    match strip mapValue with
    | VMap k _ entries =>
        if negb (Kind_eqb (KindOf k) KString) then Err ErrMapKey
        else m <- mapLoop entries [] ;; Ok (VMapSI m)
    | _ => Panic
    end.

  (** [value.MarshalBinary()] returned as the result of [Normalize]. *)
Definition marshalBinary (r : callResult) : outcome rvalue :=
    match r with
    | Returns data None => Ok (bytesValue data)
    | Returns _ (Some e) => Err e
    | Panics => Panic
    end.

  (** The part of [Normalize] after [getElemValueAndType]. *)
Definition byKind (rValue : rvalue) (rType : rtype) : outcome rvalue :=
    if Kind_eqb (KindOf rType) KPtr then Ok Nil
    else
      match KindOf rType with
      | KUint | KUint8 | KUint16 | KUint32 | KUint64 =>
          Ok (VUint W64 (Uint_ rValue))
      | KInt | KInt8 | KInt16 | KInt32 | KInt64 =>
          Ok (VInt W64 (Int_ rValue))
      | KFloat32 | KFloat64 => Ok (VFloat F64 (Float_ rValue))
      | KStruct => normalizeStruct rValue
      | KMap => normalizeMap rValue
      | KString => Ok (VString (String_ rValue))
      | KBool => Ok (VBool (Bool_ rValue))
      | KSlice | KArray => normalizeSlice rValue
      | _ => Err (ErrInvalidDtype rType)
      end.

  (** The body of [Normalize], as the source has it, with the recursive
      calls going to the parameter. *)
Definition NormalizeBody (value : rvalue) : outcome rvalue :=
    match value with
    | Nil => Ok Nil
    | VStruct TimeT _ | VStruct ValueT _ => Ok value
    | VPtr (TStruct TimeT) p =>
        match p with
        | Some t => Ok t
        | None => Panic
        end
    | VMarshaler r _ => marshalBinary r
    | _ =>
        let '(rValue, rType) := getElemValueAndType value in
        byKind rValue rType
    end.

  (** [getElemValueAndType] followed by [byKind], by structural recursion
      on the data [rv] of [self]: the form in which the recursion of
      [Normalize] is accepted.  [structural_byKind] below shows that it is
      the composition of the two. *)
Fixpoint structural (rt : rtype) (self rv : rvalue) {struct rv}
    : outcome rvalue :=
    let stop :=
      if Kind_eqb (KindOf rt) KPtr then Ok Nil
      else
        match KindOf rt with
        | KUint | KUint8 | KUint16 | KUint32 | KUint64 =>
            Ok (VUint W64 (Uint_ self))
        | KInt | KInt8 | KInt16 | KInt32 | KInt64 =>
            Ok (VInt W64 (Int_ self))
        | KFloat32 | KFloat64 => Ok (VFloat F64 (Float_ self))
        | KStruct =>
            match rv with
            | VStruct _ fs => m <- structLoop fs [] ;; Ok (VMapSI m)
            | _ => Panic
            end
        | KMap =>
            match rv with
            | VMap k _ entries =>
                if negb (Kind_eqb (KindOf k) KString) then Err ErrMapKey
                else m <- mapLoop entries [] ;; Ok (VMapSI m)
            | _ => Panic
            end
        | KString => Ok (VString (String_ self))
        | KBool => Ok (VBool (Bool_ self))
        | KSlice | KArray =>
            match rv with
            | VSlice e l | VArray e l =>
                if Kind_eqb (KindOf e) KUint8 then Ok self
                else s <- sliceLoop l ;; Ok (VSlice TInterface s)
            | _ => Panic
            end
        | _ => Err (ErrInvalidDtype rt)
        end in
    match rv with
    | VMarshaler _ v => structural rt self v
    | VPtr _ (Some p) =>
        match rt with
        | TPtr e => structural e p p
        | _ => stop
        end
    | _ => stop
    end.

End Loops.

(** [Normalize]: the type switch of the source, then the dereferencing
    loop and the switch on the kind.  [Normalize_eq] states that it is the
    fixed point of [NormalizeBody]. *)
Fixpoint Normalize (value : rvalue) : outcome rvalue :=
  match value with
  | Nil => Ok Nil
  | VStruct TimeT _ | VStruct ValueT _ => Ok value
  | VPtr (TStruct TimeT) p =>
      match p with
      | Some t => Ok t
      | None => Panic
      end
  | VMarshaler r _ => marshalBinary r
  | _ => structural Normalize (TypeOf value) value value
  end.

End internal.

(* ===================================================================== *)
(** ** Package [document] *)
(* ===================================================================== *)

Module document.

Import internal.

Definition ObjectIdField : string := "_id".
Definition ExpiresAtField : string := "_expiresAt".

(** The msgpack codec behind [marshal] and [unmarshal] is a library
    outside the repository; the document operations are defined over any
    codec.  [marshal o] is [marshal(o)] of the source, [unmarshal b] is
    [unmarshal(b, &fields)] for a [fields] of type
    [map[string]interface{}].  The bytes that [marshal] writes for a map
    are taken as a function of the map; the encoder of the source is not
    asked to sort the keys, so that in the program two calls on one map
    of several entries may write the entries in two orders. *)
Record Codec : Type := mkCodec {
  marshal : rvalue -> outcome (list byte);
  unmarshal : list byte -> outcome gomap
}.

(** [Document]: [None] is the nil slice, respectively the nil map. *)
Record Document : Set := mkDocument {
  msg : option (list byte);
  fields : option gomap
}.

Definition NewDocument : Document := {| msg := None; fields := None |}.

(** A reference to a map of the tree of maps rooted at the field map:
    [NilMap] is the nil map, [Ref m ctx] is the map with contents [m]
    reached from the root through the frames [ctx] (the map one level up
    and the key under which [m] hangs there, innermost first).  Every map
    below a Document's field map is created by [Normalize] or by
    [lookupField] and is referenced from one place only, so an assignment
    through a reference is an update of the tree: [plug]. *)
Inductive mapRef : Set :=
  | NilMap
  | Ref (m : gomap) (ctx : list (gomap * string)).

Fixpoint plug (m : gomap) (ctx : list (gomap * string)) : gomap :=
  match ctx with
  | [] => m
  | (parent, key) :: up => plug (mapSet key (VMapSI m) parent) up
  end.

(** [f, exists = currMap[field]]. *)
Definition refGet (currMap : mapRef) (field : string) : rvalue * bool :=
  match currMap with
  | NilMap => (Nil, false)
  | Ref m _ =>
      match mapGet field m with
      | Some v => (v, true)
      | None => (Nil, false)
      end
  end.

(** [m, isMap := f.(map[string]interface{})], where [f] was read from
    [currMap] under [field]. *)
Definition asMap (f : rvalue) (currMap : mapRef) (field : string)
  : mapRef * bool :=
  match f, currMap with
  | VMap TString TInterface child, Ref m ctx => (Ref child ((m, field) :: ctx), true)
  | _, _ => (NilMap, false)
  end.

(** The [for] loop of [lookupField] over the remaining segments; [f] and
    [currMap] are the loop variables and [lastName] is
    [fields[len(fields)-1]]. *)
Fixpoint lookupLoop (force : bool) (segments : list string)
  (currMap : mapRef) (f : rvalue) (lastName : string)
  : outcome (mapRef * rvalue * string) :=
  match segments with
  | [] => Ok (currMap, f, lastName)
  | field :: rest =>
      let notLast := match rest with [] => false | _ => true end in
      let '(f, exists_) := refGet currMap field in
      let '(m, isMap) := asMap f currMap field in
      if force then
        if (negb exists_ || negb isMap) && notLast then
          match currMap with
          | NilMap => Panic
          | Ref cur ctx =>
              let m := Ref [] ((mapSet field (VMapSI []) cur, field) :: ctx) in
              lookupLoop force rest m (VMapSI []) lastName
          end
        else
          lookupLoop force rest (if notLast then m else currMap) f lastName
      else if negb exists_ then Ok (NilMap, Nil, EmptyString)
      else lookupLoop force rest (if notLast then m else currMap) f lastName
  end.

Definition lookupField (name : string) (fieldMap : option gomap) (force : bool)
  : outcome (mapRef * rvalue * string) :=
  let segments := Split "." name in
  let currMap := match fieldMap with Some m => Ref m [] | None => NilMap end in
  match segments with
  | [] => Panic
  | _ => lookupLoop force segments currMap Nil (last segments EmptyString)
  end.

Section Operations.

Variable codec : Codec.

Definition initFields (doc : Document) : outcome Document :=
    match fields doc with
    | Some _ => Ok doc
    | None =>
        match msg doc with
        | None => Ok {| msg := msg doc; fields := Some [] |}
        | Some b =>
            match unmarshal codec b with
            | Err e => Err (ErrUnmarshal e)
            | Panic => Panic
            | Ok decoded =>
                match Normalize (VMapSI decoded) with
                | Err e => Err (ErrNormalize e)
                | Panic => Panic
                | Ok (VMap TString TInterface normalized) =>
                    Ok {| msg := msg doc; fields := Some normalized |}
                | Ok _ => Panic
                end
            end
        end
    end.

Definition mustInitFields (doc : Document) : outcome Document :=
    match initFields doc with
    | Ok doc' => Ok doc'
    | Err _ => Panic
    | Panic => Panic
    end.

Definition NewDocumentFrom (o : rvalue) : outcome Document :=
    b <- marshal codec o ;;
    Ok {| msg := Some b; fields := None |}.

  (** Modelled from the spec: [util.CopyMap], which is not among the
      sources, copies the nested maps and shares the leaves; on a tree of
      maps that is the identity. *)
Definition CopyMap (m : gomap) : gomap := m.

Definition Copy (doc : Document) : Document :=
    {| msg := msg doc; fields := option_map CopyMap (fields doc) |}.

Definition Has (name : string) (doc : Document) : outcome (bool * Document) :=
    doc <- mustInitFields doc ;;
    r <- lookupField name (fields doc) false ;;
    let '(fieldMap, _, _) := r in
    Ok (match fieldMap with NilMap => false | Ref _ _ => true end, doc).

Definition Get (name : string) (doc : Document) : outcome (rvalue * Document) :=
    doc <- mustInitFields doc ;;
    r <- lookupField name (fields doc) false ;;
    let '(_, v, _) := r in
    Ok (v, doc).

Definition Set_ (name : string) (value : rvalue) (doc : Document)
    : outcome Document :=
    doc <- mustInitFields doc ;;
    match Normalize value with
    | Ok normalizedValue =>
        r <- lookupField name (fields doc) true ;;
        let '(m, _, fieldName) := r in
        match m with
        | NilMap => Panic
        | Ref cur ctx =>
            let fields' := plug (mapSet fieldName normalizedValue cur) ctx in
            match marshal codec (VMapSI fields') with
            | Ok b => Ok {| msg := Some b; fields := Some fields' |}
            | Err _ => Panic
            | Panic => Panic
            end
        end
    | Err _ => Ok doc
    | Panic => Panic
    end.

Definition Decode (data : option (list byte)) : outcome Document :=
    Ok {| msg := data; fields := None |}.

Definition Encode (doc : Document) : outcome (option (list byte)) :=
    Ok (msg doc).

  (** The materialised field map of a Document: what [doc.fields] holds
      once [mustInitFields] has run. *)
Definition fieldMap (doc : Document) : outcome (option gomap) :=
    doc <- mustInitFields doc ;;
    Ok (fields doc).

End Operations.

(** The remaining operations of the package that are built on [Get],
    [Has] and [Set].  The [time] and [uuid] libraries are outside the
    repository: [Before] and [Sub] are the two methods of [time.Time] that
    [TTL] calls ([Sub] as a number of nanoseconds), [uuidFromString]
    tells whether [uuid.FromString] returns no error. *)
Record Libs : Type := mkLibs {
  Before : rvalue -> rvalue -> bool;
  Sub : rvalue -> rvalue -> Z;
  uuidFromString : string -> bool
}.

(** [int64] arithmetic wraps around. *)
Definition wrap64 (z : Z) : Z :=
  ((z + 9223372036854775808) mod 18446744073709551616 - 9223372036854775808)%Z.

(** [time.Millisecond], in nanoseconds, and [Duration.Milliseconds]:
    the integer division of Go truncates towards zero. *)
Definition Millisecond : Z := 1000000%Z.
Definition Milliseconds (d : Z) : Z := Z.quot d 1000000.

Section Accessors.

Variable codec : Codec.
Variable libs : Libs.

Definition ObjectId (doc : Document) : outcome (string * Document) :=
  r <- Get codec ObjectIdField doc ;;
  let '(v, doc) := r in
  Ok (match v with VString id => id | _ => EmptyString end, doc).

Definition NewDocumentOf (o : rvalue) : option Document :=
  match NewDocumentFrom codec o with
  | Ok d => Some d
  | _ => None
  end.

(** [values] lists the entries of the map in the order [range] yields
    them. *)
Fixpoint SetAll (values : gomap) (doc : Document) : outcome Document :=
  match values with
  | [] => Ok doc
  | (updateField, updateValue) :: rest =>
      doc <- Set_ codec updateField updateValue doc ;;
      SetAll rest doc
  end.

(** The result is a [*time.Time]: [None] is nil. *)
Definition ExpiresAt (doc : Document) : outcome (option rvalue * Document) :=
  r <- Get codec ExpiresAtField doc ;;
  let '(v, doc) := r in
  Ok (match v with VStruct TimeT _ => Some v | _ => None end, doc).

(** [expiration] is a [time.Time]. *)
Definition SetExpiresAt (expiration : rvalue) (doc : Document)
  : outcome Document :=
  Set_ codec ExpiresAtField expiration doc.

(** [now] is what [time.Now()] returns; the result is a [time.Duration],
    in nanoseconds. *)
Definition TTL (now : rvalue) (doc : Document) : outcome (Z * Document) :=
  r <- ExpiresAt doc ;;
  let '(expiresAt, doc) := r in
  match expiresAt with
  | None => Ok ((-1)%Z, doc)
  | Some e =>
      if Before libs e now then Ok (0%Z, doc)
      else Ok (wrap64 (Millisecond * Milliseconds (Sub libs e now)), doc)
  end.

Definition isValidObjectId (id : string) : bool := uuidFromString libs id.

(** The result is the error, [None] for nil.  The text of the second
    error leaves out the value it prints. *)
Definition Validate (doc : Document) : outcome (option error * Document) :=
  r <- ObjectId doc ;;
  let '(id, doc) := r in
  if negb (isValidObjectId id) then
    Ok (Some (ErrUser ("invalid _id: " ++ id)), doc)
  else
    r <- Has codec ExpiresAtField doc ;;
    let '(has, doc) := r in
    if has then
      r <- ExpiresAt doc ;;
      let '(e, doc) := r in
      match e with
      | None => Ok (Some (ErrUser "invalid _expiresAt"), doc)
      | Some _ => Ok (None, doc)
      end
    else Ok (None, doc).

End Accessors.

End document.

(* ===================================================================== *)
(** ** Package [index] *)
(* ===================================================================== *)

Module index.

(** [type IndexType int], with the two constants declared by [iota]. *)
Definition IndexType : Set := Z.
Definition IndexSingleField : IndexType := 0%Z.
Definition IndexGeoSpatial : IndexType := 1%Z.

Record IndexInfo : Set := mkIndexInfo {
  Field : string;
  Type_ : IndexType
}.

Record GeoSpatialIndexInfo : Set := mkGeoSpatialIndexInfo {
  MinRange : spec_float;
  MaxRange : spec_float
}.

Record indexBase : Set := mkIndexBase {
  collection : string;
  field : string
}.

Definition Collection (idx : indexBase) : string := collection idx.
Definition Field_ (idx : indexBase) : string := field idx.

Section Badger.

  (** [*badger.Txn]: the transaction handles of the key-value store. *)
Variable Txn : Type.

  (** [badgerRangeIndex], by the two fields its literal in
      [CreateBadgerIndex] sets. *)
Record badgerRangeIndex : Type := mkBadgerRangeIndex {
    base : indexBase;
    txn : Txn
  }.

  (** The result is an [Index]: [None] is the nil interface. *)
Definition CreateBadgerIndex (collection field : string)
    (idxType : IndexType) (txn : Txn) : option badgerRangeIndex :=
    let indexBase := {| collection := collection; field := field |} in
    if Z.eqb idxType IndexSingleField then
      Some {| base := indexBase; txn := txn |}
    else None.

End Badger.

Arguments mkBadgerRangeIndex {Txn} base txn.
Arguments base {Txn} b.
Arguments txn {Txn} b.
Arguments CreateBadgerIndex {Txn} collection field idxType txn.

(** The reading of "the descriptor carries the collection name, the field
    name and the index kind": some projection [coll] reads a collection
    name off a descriptor, and every triple is carried by a descriptor. *)
Definition carries_collection_field_kind : Prop :=
  exists coll : IndexInfo -> string,
    forall (c f : string) (k : IndexType),
      exists i : IndexInfo, coll i = c /\ Field i = f /\ Type_ i = k.

End index.

(* ===================================================================== *)
(** ** A reference codec: a fragment of msgpack *)
(* ===================================================================== *)

(** The codec of the repository is the msgpack library.  The fragment
    below gives concrete instances to the theorems on documents: nil
    ([0xc0]), booleans ([0xc2], [0xc3]), integers from 0 to 127 (positive
    fixint, which is what compact integers are written as, and which is
    read back into an [interface{}] as an [int8]), strings of at most 31
    bytes (fixstr) and maps of at most 15 entries with string keys
    (fixmap).  The byte [0xc1] is never used by the format. *)

Module refcodec.

Import document.

Definition byteOf (n : N) : byte :=
  match Byte.of_N n with
  | Some b => b
  | None => x00
  end.

Definition encodeString (s : string) : option (list byte) :=
  if (String.length s <=? 31)%nat
  then Some (byteOf (160 + N.of_nat (String.length s)) :: list_byte_of_string s)
  else None.

Definition unsupported {A : Type} : outcome A :=
  Err (ErrCodec "msgpack: unsupported by the reference codec").

Fixpoint encode (v : rvalue) : outcome (list byte) :=
  match v with
  | Nil => Ok [byteOf 192]
  | VBool false => Ok [byteOf 194]
  | VBool true => Ok [byteOf 195]
  | VInt _ n | VUint _ n =>
      if ((0 <=? n) && (n <=? 127))%Z then Ok [byteOf (Z.to_N n)]
      else unsupported
  | VString s =>
      match encodeString s with
      | Some b => Ok b
      | None => unsupported
      end
  | VMap TString _ m =>
      if (List.length m <=? 15)%nat then
        body <-
          (fix entries (l : list (string * rvalue)) : outcome (list byte) :=
             match l with
             | [] => Ok []
             | (k, x) :: rest =>
                 match encodeString k with
                 | Some kb =>
                     xb <- encode x ;;
                     rb <- entries rest ;;
                     Ok (kb ++ xb ++ rb)
                 | None => unsupported
                 end
             end) m ;;
        Ok (byteOf (128 + N.of_nat (List.length m)) :: body)
      else unsupported
  | _ => unsupported
  end.

Definition decodeString (bs : list byte) : option (string * list byte) :=
  match bs with
  | [] => None
  | c :: rest =>
      let n := Byte.to_N c in
      if ((160 <=? n) && (n <=? 191))%N then
        let len := N.to_nat (n - 160) in
        if (len <=? List.length rest)%nat
        then Some (string_of_list_byte (firstn len rest), skipn len rest)
        else None
      else None
  end.

Fixpoint decodeValue (fuel : nat) (bs : list byte) {struct fuel}
  : option (rvalue * list byte) :=
  match fuel with
  | O => None
  | S fuel' =>
      match bs with
      | [] => None
      | c :: rest =>
          let n := Byte.to_N c in
          if (n <=? 127)%N then Some (VInt W8 (Z.of_N n), rest)
          else if ((128 <=? n) && (n <=? 143))%N then
            match decodeEntries fuel' (N.to_nat (n - 128)) rest [] with
            | Some (m, rest') => Some (VMapSI m, rest')
            | None => None
            end
          else if ((160 <=? n) && (n <=? 191))%N then
            match decodeString bs with
            | Some (s, rest') => Some (VString s, rest')
            | None => None
            end
          else if (n =? 192)%N then Some (Nil, rest)
          else if (n =? 194)%N then Some (VBool false, rest)
          else if (n =? 195)%N then Some (VBool true, rest)
          else None
      end
  end
with decodeEntries (fuel : nat) (count : nat) (bs : list byte) (m : gomap)
  {struct fuel} : option (gomap * list byte) :=
  match fuel with
  | O => None
  | S fuel' =>
      match count with
      | O => Some (m, bs)
      | S count' =>
          match decodeString bs with
          | Some (k, rest) =>
              match decodeValue fuel' rest with
              | Some (x, rest') => decodeEntries fuel' count' rest' (mapSet k x m)
              | None => None
              end
          | None => None
          end
      end
  end.

(** Decoding into a [map[string]interface{}]: the first byte must open a
    map. *)
Definition decode (bs : list byte) : outcome gomap :=
  match bs with
  | c :: _ =>
      let n := Byte.to_N c in
      if ((128 <=? n) && (n <=? 143))%N then
        match decodeValue (S (S (List.length bs))) bs with
        | Some (VMap TString TInterface m, _) => Ok m
        | _ => Err (ErrCodec "msgpack: invalid code decoding map length")
        end
      else Err (ErrCodec "msgpack: invalid code decoding map length")
  | [] => Err (ErrCodec "EOF")
  end.

Definition codec : Codec := {| marshal := encode; unmarshal := decode |}.

End refcodec.

(** Stand-ins for the [time] and [uuid] libraries, to give concrete
    instances to the theorems on expiration and validation, with a codec
    that writes instants: an instant
    [Time 0 ns] is read as [ns] nanoseconds on a single clock, and an
    identifier is accepted in the canonical form of 36 characters,
    hexadecimal digits with a hyphen after the 8th, 12th, 16th and 20th
    digit. *)

Module reflibs.

Import document.

Definition nanos (t : rvalue) : Z :=
  match t with
  | VStruct TimeT ((_, _) :: (_, VInt W64 ext) :: _) => ext
  | _ => 0%Z
  end.

Definition isHex (c : ascii) : bool :=
  let n := nat_of_ascii c in
  ((48 <=? n) && (n <=? 57) || (97 <=? n) && (n <=? 102) ||
   (65 <=? n) && (n <=? 70))%nat.

Fixpoint canonicalFrom (i : nat) (s : string) : bool :=
  match s with
  | EmptyString => (i =? 36)%nat
  | String c rest =>
      (if ((i =? 8) || (i =? 13) || (i =? 18) || (i =? 23))%nat
       then Ascii.eqb c "-" else isHex c)
      && canonicalFrom (S i) rest
  end.

(** The reference codec, with the instants that are entries of the
    encoded map written as msgpack timestamps (extension type -1, format
    timestamp 64: 30 bits of nanoseconds, then 34 bits of seconds). *)
Fixpoint bigEndian (n : nat) (z : Z) : list byte :=
  match n with
  | O => []
  | S n' =>
      bigEndian n' (Z.shiftr z 8) ++ [refcodec.byteOf (Z.to_N (Z.land z 255))]
  end.

Definition encodeTime (t : rvalue) : list byte :=
  let ns := nanos t in
  refcodec.byteOf 215 :: refcodec.byteOf 255 ::
  bigEndian 8 (Z.lor (Z.shiftl (ns mod 1000000000) 34) (ns / 1000000000)).

Fixpoint encodeEntries (l : gomap) : outcome (list byte) :=
  match l with
  | [] => Ok []
  | (k, x) :: rest =>
      match refcodec.encodeString k with
      | Some kb =>
          xb <- match x with
                | VStruct TimeT _ => Ok (encodeTime x)
                | _ => refcodec.encode x
                end ;;
          rb <- encodeEntries rest ;;
          Ok (kb ++ xb ++ rb)
      | None => refcodec.unsupported
      end
  end.

Definition encode (v : rvalue) : outcome (list byte) :=
  match v with
  | VMap TString _ m =>
      if (List.length m <=? 15)%nat then
        body <- encodeEntries m ;;
        Ok (refcodec.byteOf (128 + N.of_nat (List.length m)) :: body)
      else refcodec.unsupported
  | _ => refcodec.encode v
  end.

Definition codec : Codec :=
  {| marshal := encode; unmarshal := refcodec.decode |}.

Definition libs : Libs :=
  {| Before := fun t u => (nanos t <? nanos u)%Z;
     Sub := fun t u => (nanos t - nanos u)%Z;
     uuidFromString := canonicalFrom 0 |}.

End reflibs.

(* ===================================================================== *)
(** ** Notions used to state the properties *)
(* ===================================================================== *)

(** [ptrType n e] is [e] under [n] pointer stars; [nilChain n e] is a
    value of type [ptrType (S n) e]: [n] pointers that are not nil and
    then a nil one. *)
Fixpoint ptrType (n : nat) (e : rtype) : rtype :=
  match n with
  | O => e
  | S n' => TPtr (ptrType n' e)
  end.

Fixpoint nilChain (n : nat) (e : rtype) : rvalue :=
  match n with
  | O => VPtr e None
  | S n' => VPtr (ptrType n e) (Some (nilChain n' e))
  end.

(** Two values of byte-slice types with a [MarshalBinary] method, both
    holding the bytes 1, 2, 3: [sealedBytes] is of a
    [type Sealed []byte] whose method returns
    [nil, errors.New("sealed")], [framedBytes] of a [type Framed []byte]
    whose method returns the length followed by the bytes. *)
Definition sealedBytes : rvalue :=
  VMarshaler (Returns [] (Some (ErrUser "sealed")))
    (VSlice (TUint W8) [VUint W8 1; VUint W8 2; VUint W8 3]).

Definition framedBytes : rvalue :=
  VMarshaler (Returns [x03; x01; x02; x03] None)
    (VSlice (TUint W8) [VUint W8 1; VUint W8 2; VUint W8 3]).

(** The scalar kinds [Normalize] supports: booleans, the signed and
    unsigned integers, the floating-point numbers and strings. *)
Definition scalarKind (k : Kind) : bool :=
  match k with
  | KBool | KString
  | KInt | KInt8 | KInt16 | KInt32 | KInt64
  | KUint | KUint8 | KUint16 | KUint32 | KUint64
  | KFloat32 | KFloat64 => true
  | _ => false
  end.

Definition supportedScalar (x : rvalue) : bool :=
  match x with
  | Nil => false
  | _ => scalarKind (KindOf (TypeOf x))
  end.

(** For a struct field: whether it is exported, whether its tag asks to
    omit it when empty, and the key [normalizeStruct] stores it under. *)
Definition exported (ft : StructField) : bool := String.eqb (PkgPath ft) "".

Definition omitEmpty (ft : StructField) : bool :=
  snd (internal.processStructTag (Tag ft)).

Definition fieldKey (ft : StructField) : string :=
  let name := fst (internal.processStructTag (Tag ft)) in
  if negb (String.eqb name "") then name else Name ft.

(** Two records for the [omitempty] tag.  [recordAB] is
    [struct { A int `clover:"x,omitempty"`; B int `clover:"x"` }{0, 7}];
    [recordEmbedded] is
    [struct { Inner `clover:"inner,omitempty"` }{Inner{X: 1}}] with the
    embedded [type Inner struct { X int }];
    [recordZero] is [struct { In Inner `clover:"in,omitempty"` }{}], whose
    field holds the zero value of [Inner];
    [recordName s] is [struct { Name string `clover:"clover,omitempty"` }{s}]. *)
Definition fieldA : StructField := mkField "A" "" "x,omitempty" false (TInt W0).
Definition fieldB : StructField := mkField "B" "" "x" false (TInt W0).
Definition recordAB : rvalue :=
  VStruct (OtherT "S") [ (fieldA, VInt W0 0); (fieldB, VInt W0 7) ].

Definition fieldX : StructField := mkField "X" "" "" false (TInt W0).
Definition fieldInner : StructField :=
  mkField "Inner" "" "inner,omitempty" true (TStruct (OtherT "Inner")).
Definition recordEmbedded : rvalue :=
  VStruct (OtherT "Outer")
    [ (fieldInner, VStruct (OtherT "Inner") [ (fieldX, VInt W0 1) ]) ].

Definition fieldIn : StructField :=
  mkField "In" "" "in,omitempty" false (TStruct (OtherT "Inner")).
Definition recordZero : rvalue :=
  VStruct (OtherT "Holder")
    [ (fieldIn, VStruct (OtherT "Inner") [ (fieldX, VInt W0 0) ]) ].

Definition fieldName : StructField :=
  mkField "Name" "" "clover,omitempty" false TString.
Definition recordName (s : string) : rvalue :=
  VStruct (OtherT "T") [ (fieldName, VString s) ].

(** [f.(map[string]interface{})] as an option. *)
Definition mapOf (f : rvalue) : option gomap :=
  match f with
  | VMap TString TInterface c => Some c
  | _ => None
  end.

(** The walk of a dot-path through nested maps, in the words of the
    specification of [get]: absent as soon as a segment is missing or an
    intermediate segment is not a map. *)
Fixpoint pathLookup (segments : list string) (m : gomap) : option rvalue :=
  match segments with
  | [] => None
  | s :: rest =>
      match rest with
      | [] => mapGet s m
      | _ =>
          match mapGet s m with
          | Some (VMap TString TInterface child) => pathLookup rest child
          | _ => None
          end
      end
  end.

(** The assignment of a dot-path, in the words of the specification of
    [set]: an intermediate segment that is missing or not a map becomes an
    empty map, and the leaf is assigned. *)
Fixpoint setPath (segments : list string) (v : rvalue) (m : gomap) : gomap :=
  match segments with
  | [] => m
  | s :: rest =>
      match rest with
      | [] => mapSet s v m
      | _ =>
          let child :=
            match mapGet s m with
            | Some (VMap TString TInterface c) => c
            | _ => []
            end in
          mapSet s (VMapSI (setPath rest v child)) m
      end
  end.

(** The field map [{"a": {"b": {"c": 5}}}]. *)
Definition mapABC : gomap :=
  [ ("a", VMapSI [ ("b", VMapSI [ ("c", VInt W64 5) ]) ]) ].

(** The Document [Decode] builds from the single byte [0xc1], which no
    msgpack value starts with. *)
Definition corruptDoc : document.Document :=
  {| document.msg := Some [ "193"%byte ]; document.fields := None |}.

(** The Document after [Set("a", nil)] on an empty Document, under the
    reference codec: the field [a] is present with a null value. *)
Definition docNullA : document.Document :=
  {| document.msg := Some [ "129"%byte; "161"%byte; "a"%byte; "192"%byte ];
     document.fields := Some [ ("a", Nil) ] |}.

(** The Document after [Set("a.b.c", 5)] on an empty Document, under the
    reference codec. *)
Definition docABC : document.Document :=
  {| document.msg :=
       Some [ "129"%byte; "161"%byte; "a"%byte; "129"%byte; "161"%byte;
              "b"%byte; "129"%byte; "161"%byte; "c"%byte; "005"%byte ];
     document.fields := Some mapABC |}.

(** The Documents a client of the package can hold: built by
    [NewDocument], [Decode] or [NewDocumentFrom], then materialised by an
    accessor ([Has], [Get], [ToMap], [Fields] all start with
    [mustInitFields]), assigned to by [Set], or copied. *)
Inductive Reachable (codec : document.Codec) : document.Document -> Prop :=
  | Reachable_new : Reachable codec document.NewDocument
  | Reachable_decode (data : option (list byte)) :
      Reachable codec {| document.msg := data; document.fields := None |}
  | Reachable_from (o : rvalue) (d : document.Document) :
      document.NewDocumentFrom codec o = Ok d -> Reachable codec d
  | Reachable_init (d d' : document.Document) :
      Reachable codec d ->
      document.mustInitFields codec d = Ok d' -> Reachable codec d'
  | Reachable_set (name : string) (value : rvalue) (d d' : document.Document) :
      Reachable codec d ->
      document.Set_ codec name value d = Ok d' -> Reachable codec d'
  | Reachable_copy (d : document.Document) :
      Reachable codec d -> Reachable codec (document.Copy d).

(** The two ways in which the cached bytes and a materialised field map
    agree: the map was decoded from the bytes, or the bytes were encoded
    from the map. *)
Definition consistent (codec : document.Codec) (d : document.Document) : Prop :=
  match document.fields d with
  | None => True
  | Some m =>
      document.fieldMap codec
        {| document.msg := document.msg d; document.fields := None |}
        = Ok (Some m)
      \/ exists b, document.msg d = Some b /\
                   document.marshal codec (VMapSI m) = Ok b
  end.

(** The Documents that were never assigned to: built by [NewDocument],
    [Decode] or [NewDocumentFrom], then only materialised by an accessor
    or copied. *)
Inductive Unassigned (codec : document.Codec) : document.Document -> Prop :=
  | Unassigned_new : Unassigned codec document.NewDocument
  | Unassigned_decode (data : option (list byte)) :
      Unassigned codec {| document.msg := data; document.fields := None |}
  | Unassigned_from (o : rvalue) (d : document.Document) :
      document.NewDocumentFrom codec o = Ok d -> Unassigned codec d
  | Unassigned_init (d d' : document.Document) :
      Unassigned codec d ->
      document.mustInitFields codec d = Ok d' -> Unassigned codec d'
  | Unassigned_copy (d : document.Document) :
      Unassigned codec d -> Unassigned codec (document.Copy d).

(** The Document after [Set("n", uint64(5))] on an empty Document, under
    the reference codec: compact integers write 5 as the single byte
    [0x05], whatever its type. *)
Definition docUint5 : document.Document :=
  {| document.msg := Some [ "129"%byte; "161"%byte; "n"%byte; "005"%byte ];
     document.fields := Some [ ("n", VUint W64 5) ] |}.

(** ** Notions for the further properties *)

(** The canonical values: nil, booleans, [int64], [uint64], [float64],
    strings, byte sequences, lists ([[]interface{}]) of canonical values,
    maps ([map[string]interface{}]) of canonical values, [time.Time] and
    [Value]. *)
Fixpoint uniqueKeys (m : gomap) : bool :=
  match m with
  | [] => true
  | (k, _) :: rest =>
      match mapGet k rest with
      | None => uniqueKeys rest
      | Some _ => false
      end
  end.

Fixpoint canonical (v : rvalue) : bool :=
  match v with
  | Nil | VBool _ | VString _ => true
  | VInt W64 _ | VUint W64 _ => true
  | VFloat F64 _ => true
  | VSlice e l =>
      if Kind_eqb (KindOf e) KUint8 then true
      else match e with
           | TInterface => forallb canonical l
           | _ => false
           end
  | VArray e _ => Kind_eqb (KindOf e) KUint8
  | VMap TString TInterface m =>
      uniqueKeys m && forallb (fun kv => canonical (snd kv)) m
  | VStruct TimeT _ | VStruct ValueT _ => true
  | _ => false
  end.

(** The values [Normalize] is regular on.  Where [Normalize] is called (at
    the top, on an element, on a field: [pointee] is false) a value of a
    type with [MarshalBinary] is replaced by its bytes, and a
    [*time.Time] must point to a [time.Time], as its type says.  Behind a
    pointer ([pointee] is true) the method set is not consulted, so that
    a byte sequence of such a type would be returned with its type: no
    pointer may point to a value of a type with [MarshalBinary]. *)
Fixpoint regular (pointee : bool) (v : rvalue) : bool :=
  match v with
  | VMarshaler _ _ => negb pointee
  | VPtr e (Some p) =>
      regular true p &&
      (pointee ||
       match e with
       | TStruct TimeT =>
           match p with VStruct TimeT _ => true | _ => false end
       | _ => true
       end)
  | VSlice _ l | VArray _ l => forallb (regular false) l
  | VMap _ _ m => forallb (fun kv => regular false (snd kv)) m
  | VStruct _ fs => forallb (fun fv => regular false (snd fv)) fs
  | _ => true
  end.

(** [Q] holds of every element, entry value or field value of [v]. *)
Definition childrenSatisfy (Q : rvalue -> Prop) (v : rvalue) : Prop :=
  match v with
  | VSlice _ l | VArray _ l => Forall Q l
  | VMap _ _ m => Forall (fun kv => Q (snd kv)) m
  | VStruct _ fs => Forall (fun fv => Q (snd fv)) fs
  | _ => True
  end.

(** The values the type switch of [Normalize] sends to
    [getElemValueAndType], and [time.Time]. *)
Definition dereferenced (v : rvalue) : bool :=
  match v with
  | Nil | VMarshaler _ _ | VStruct ValueT _ | VPtr (TStruct TimeT) _ => false
  | _ => true
  end.

(** [ptrTo n v] is [v] behind [n] pointers, none of them nil and none of
    a type with methods. *)
Fixpoint ptrTo (n : nat) (v : rvalue) : rvalue :=
  match n with
  | O => v
  | S n' => VPtr (TypeOf (ptrTo n' v)) (Some (ptrTo n' v))
  end.

(** [ptrChain ms v] is [v] behind one pointer for each entry of [ms],
    the outermost first and none of them nil; the pointer of an entry
    [Some r] is of a type with [MarshalBinary], a call of which does [r]
    (as [&v] is when [v] is of a type that declares the method on the
    pointer receiver), the pointer of an entry [None] is of a type
    without. *)
Definition withMethods (r : option callResult) (v : rvalue) : rvalue :=
  match r with
  | Some r => VMarshaler r v
  | None => v
  end.

Fixpoint ptrChain (ms : list (option callResult)) (v : rvalue) : rvalue :=
  match ms with
  | [] => v
  | r :: ms' =>
      withMethods r (VPtr (TypeOf (ptrChain ms' v)) (Some (ptrChain ms' v)))
  end.

(** The byte [sep] does not occur in [s]. *)
Fixpoint noSep (sep : ascii) (s : string) : bool :=
  match s with
  | EmptyString => true
  | String c s' => negb (Ascii.eqb c sep) && noSep sep s'
  end.

(** Two paths diverge when they differ at a segment both have: neither
    is a prefix of the other. *)
Fixpoint diverge (p q : list string) : bool :=
  match p, q with
  | s :: p', t :: q' => if String.eqb s t then diverge p' q' else true
  | _, _ => false
  end.

(** The Documents whose field map, once there, holds canonical values
    only: the field map is canonical, or it is still to be decoded and
    what the codec decodes from the bytes is regular (a decoder that
    fills an [interface{}] builds no pointer and no value with
    methods). *)
Definition wellFormed (codec : document.Codec) (d : document.Document)
  : Prop :=
  match document.fields d with
  | Some m => canonical (VMapSI m) = true
  | None =>
      forall b decoded,
        document.msg d = Some b ->
        document.unmarshal codec b = Ok decoded ->
        regular false (VMapSI decoded) = true
  end.

(* ===================================================================== *)
(** * Part II: properties *)
(* ===================================================================== *)

(** ** Basic facts *)

Lemma Kind_eqb_eq (a b : Kind) : Kind_eqb a b = true <-> a = b.
Proof. destruct a, b; simpl; split; intro H; try reflexivity; discriminate H. Qed.

Import internal.

Lemma strip_idem (v : rvalue) : strip (strip v) = strip v.
Proof.
  induction v using rvalue_ind; simpl; auto.
Qed.

(** The structural form is the dereferencing loop followed by the switch
    on the kind. *)
Lemma structural_byKind (N : rvalue -> outcome rvalue) (rv : rvalue) :
  forall (rt : rtype) (self : rvalue),
    strip self = strip rv ->
    structural N rt self rv =
    (let '(rValue, rType) := derefLoop rt self rv in byKind N rValue rType).
Proof.
  induction rv using rvalue_ind; intros rt self Hs;
    try (simpl in Hs; simpl structural; simpl derefLoop;
         unfold byKind, normalizeStruct, normalizeMap, normalizeSlice;
         rewrite Hs; destruct (KindOf rt); reflexivity).
  - (* non-nil pointer *)
    destruct rt;
      try (simpl in Hs; simpl structural; simpl derefLoop;
           unfold byKind, normalizeStruct, normalizeMap, normalizeSlice;
           rewrite Hs; reflexivity).
    simpl. apply IHrv. reflexivity.
  - (* a value with methods *)
    simpl. apply IHrv. exact Hs.
Qed.

(** [Normalize] is the fixed point of the body written as in the source. *)
Lemma Normalize_eq (value : rvalue) :
  Normalize value = NormalizeBody Normalize value.
Proof.
  destruct value; try reflexivity;
    unfold NormalizeBody, getElemValueAndType;
    rewrite <- structural_byKind by reflexivity; reflexivity.
Qed.


(** ** The normaliser on pointers, byte sequences and scalars *)

Lemma TypeOf_nilChain (n : nat) (e : rtype) :
  TypeOf (nilChain n e) = ptrType (S n) e.
Proof. destruct n; reflexivity. Qed.

Lemma structural_nilChain (N : rvalue -> outcome rvalue) (n : nat) (e : rtype) :
  structural N (ptrType (S n) e) (nilChain n e) (nilChain n e) = Ok Nil.
Proof.
  induction n as [|n IH].
  - reflexivity.
  - change (structural N (ptrType (S n) e) (nilChain n e) (nilChain n e) = Ok Nil).
    exact IH.
Qed.

(** The path of the source for pointers in general: a chain of pointers
    that ends in nil normalises to nil, whatever it points to, as long as
    the value is not itself a [*time.Time]. *)
Lemma Normalize_nil_pointer_chain (n : nat) (e : rtype) :
  (n = 0%nat -> e <> TStruct TimeT) ->
  Normalize (nilChain n e) = Ok Nil.
Proof.
  intro H. destruct n as [|n].
  - simpl. destruct e; try reflexivity.
    destruct id; try reflexivity.
    exfalso. apply H; reflexivity.
  - change (structural Normalize (ptrType (S (S n)) e)
              (nilChain (S n) e) (nilChain (S n) e) = Ok Nil).
    apply structural_nilChain.
Qed.

(** C2 (the code at the failing input): a nil [*time.Time] is matched by
    the case [*time.Time] of the type switch, which dereferences it:
    [Normalize] panics instead of returning nil without error, and so
    does the normalisation of a record with such a field
    ([struct { ExpiresAt *time.Time }{nil}]); whereas a nil pointer of
    another type, such as [*int], gives nil. *)
Theorem Normalize_nil_time_pointer_panics :
  Normalize (VPtr (TStruct TimeT) None) = Panic /\
  Normalize
    (VStruct (OtherT "Session")
       [ (mkField "ExpiresAt" "" "" false (TPtr (TStruct TimeT)),
          VPtr (TStruct TimeT) None) ]) = Panic /\
  Normalize (VPtr (TInt W0) None) = Ok Nil.
Proof. repeat split. Qed.

Lemma Normalize_bytesValue (data : list byte) :
  Normalize (bytesValue data) = Ok (bytesValue data).
Proof. reflexivity. Qed.

Lemma KindOf_Uint8 (e : rtype) : KindOf e = KUint8 -> e = TUint W8.
Proof.
  destruct e as [ | w | w | | w | w | | | | | | | | | | ];
    try destruct w; intro H; try discriminate H; reflexivity.
Qed.

(** C6 as stated fails on a byte slice of a type that has a
    [MarshalBinary] method: the type switch of [Normalize] calls the
    method before the kind is looked at, and the result is the error or
    the bytes the method returns, not the bytes of the slice. *)
Lemma Normalize_marshaler_bytes_counterexample :
  (KindOf (TypeOf sealedBytes) = KSlice /\
   strip sealedBytes = VSlice (TUint W8) [VUint W8 1; VUint W8 2; VUint W8 3] /\
   Normalize sealedBytes = Err (ErrUser "sealed")) /\
  (KindOf (TypeOf framedBytes) = KSlice /\
   strip framedBytes = VSlice (TUint W8) [VUint W8 1; VUint W8 2; VUint W8 3] /\
   Normalize framedBytes =
     Ok (VSlice (TUint W8) [VUint W8 3; VUint W8 1; VUint W8 2; VUint W8 3])).
Proof. repeat split. Qed.

(** C6, amended: a slice or an array whose element kind is [uint8] and
    whose type has no [MarshalBinary] method normalises to itself, one
    binary blob with the same bytes, and never to a list
    ([[]interface{}]) of normalised elements; so does [[]byte{1,2,3}].
    When the type has the method, the result is that of the method, and
    [normalizeSlice] is not reached. *)
Theorem Normalize_byte_sequence (e : rtype) (l : list rvalue) :
  KindOf e = KUint8 ->
  Normalize (VSlice e l) = Ok (VSlice e l) /\
  Normalize (VArray e l) = Ok (VArray e l) /\
  (forall s, Normalize (VSlice e l) <> Ok (VSlice TInterface s)) /\
  (forall s, Normalize (VArray e l) <> Ok (VSlice TInterface s)) /\
  Normalize (bytesValue [x01; x02; x03]) =
    Ok (VSlice (TUint W8) [VUint W8 1; VUint W8 2; VUint W8 3]) /\
  (forall r, Normalize (VMarshaler r (VSlice e l)) = marshalBinary r) /\
  (forall r, Normalize (VMarshaler r (VArray e l)) = marshalBinary r).
Proof.
  intro H. apply KindOf_Uint8 in H. subst e.
  repeat split; try reflexivity; intros s H; simpl in H; discriminate H.
Qed.

(** The theorem at [[]byte{1,2,3}] and [[3]byte{1,2,3}]. *)
Lemma Normalize_byte_sequence_witness :
  KindOf (TUint W8) = KUint8 /\
  Normalize (VSlice (TUint W8) [VUint W8 1; VUint W8 2; VUint W8 3]) =
    Ok (VSlice (TUint W8) [VUint W8 1; VUint W8 2; VUint W8 3]) /\
  Normalize (VArray (TUint W8) [VUint W8 1; VUint W8 2; VUint W8 3]) =
    Ok (VArray (TUint W8) [VUint W8 1; VUint W8 2; VUint W8 3]).
Proof.
  split; [reflexivity|].
  destruct (Normalize_byte_sequence (TUint W8)
              [VUint W8 1; VUint W8 2; VUint W8 3] eq_refl) as [H1 [H2 _]].
  split; [exact H1 | exact H2].
Defined.

Lemma strip_not_marshaler (v : rvalue) :
  forall r w, strip v <> VMarshaler r w.
Proof.
  induction v using rvalue_ind; intros r0 w0 Hc; try discriminate Hc.
  simpl in Hc. exact (IHv r0 w0 Hc).
Qed.

(** C7: on a value of a supported scalar kind, normalising the result of
    [Normalize] again changes nothing, and a value of a plain scalar type
    does have a result. *)
Theorem Normalize_idempotent_on_scalars (x : rvalue) :
  supportedScalar x = true ->
  (y <- Normalize x ;; Normalize y) = Normalize x /\
  (strip x = x -> exists y, Normalize x = Ok y /\ Normalize y = Ok y).
Proof.
  intro H.
  destruct x as [ | b | w n | w n | n | w f | w | s | | | | e p | e l | e l
                | k e m | id fs | r v ];
    simpl in H; try discriminate H;
    try (split; [reflexivity | intros _; eexists; split; reflexivity]);
    try (destruct w; simpl in H; try discriminate H;
         (split; [reflexivity | intros _; eexists; split; reflexivity])).
  split.
  - simpl. destruct r as [data [e|]|]; reflexivity.
  - intro Hs. exfalso. simpl in Hs. exact (strip_not_marshaler v r v Hs).
Qed.

(** The theorem at [int8(-3)]. *)
Lemma Normalize_idempotent_on_scalars_witness :
  supportedScalar (VInt W8 (-3)) = true /\
  (y <- Normalize (VInt W8 (-3)) ;; Normalize y) = Normalize (VInt W8 (-3)) /\
  exists y, Normalize (VInt W8 (-3)) = Ok y /\ Normalize y = Ok y.
Proof.
  split; [reflexivity |].
  destruct (Normalize_idempotent_on_scalars (VInt W8 (-3)) eq_refl) as [H1 H2].
  split; [exact H1 | exact (H2 eq_refl)].
Defined.

(** ** Maps *)

Lemma mapGet_mapSet_eq (k : string) (v : rvalue) (m : gomap) :
  mapGet k (mapSet k v m) = Some v.
Proof.
  induction m as [|[k' v'] m IH]; simpl.
  - rewrite String.eqb_refl. reflexivity.
  - destruct (String.eqb k k') eqn:E; simpl; rewrite E; auto.
Qed.

Lemma mapGet_mapSet_neq (k k' : string) (v : rvalue) (m : gomap) :
  k <> k' -> mapGet k (mapSet k' v m) = mapGet k m.
Proof.
  intro Hne. induction m as [|[k2 v2] m IH]; simpl.
  - destruct (String.eqb k k') eqn:E; [|reflexivity].
    apply String.eqb_eq in E. contradiction.
  - destruct (String.eqb k' k2) eqn:E; simpl.
    + apply String.eqb_eq in E. subst k2.
      destruct (String.eqb k k') eqn:E'; [|reflexivity].
      apply String.eqb_eq in E'. contradiction.
    + rewrite IH. reflexivity.
Qed.

Lemma mapSet_mapSet (k : string) (v v' : rvalue) (m : gomap) :
  mapSet k v (mapSet k v' m) = mapSet k v m.
Proof.
  induction m as [|[k2 v2] m IH]; simpl.
  - rewrite String.eqb_refl. reflexivity.
  - destruct (String.eqb k k2) eqn:E; simpl; rewrite E; [reflexivity|].
    rewrite IH. reflexivity.
Qed.

Lemma mapSet_keeps (k k' : string) (v : rvalue) (m : gomap) :
  mapGet k m <> None -> mapGet k (mapSet k' v m) <> None.
Proof.
  intro H. destruct (String.eqb k k') eqn:E.
  - apply String.eqb_eq in E. subst k'. rewrite mapGet_mapSet_eq. discriminate.
  - apply String.eqb_neq in E. rewrite mapGet_mapSet_neq by exact E. exact H.
Qed.

Lemma mapMerge_keeps (k : string) (src : gomap) :
  forall m, mapGet k m <> None -> mapGet k (mapMerge src m) <> None.
Proof.
  unfold mapMerge. induction src as [|[k' v'] src IH]; intros m H; simpl.
  - exact H.
  - apply IH. apply mapSet_keeps. exact H.
Qed.

(** ** Struct fields tagged [omitempty] *)

(** One iteration of the loop of [normalizeStruct]. *)
Lemma structLoop_cons (N : rvalue -> outcome rvalue) (ft : StructField)
  (v : rvalue) (rest : list (StructField * rvalue)) (m : gomap) :
  structLoop N ((ft, v) :: rest) m =
  if exported ft && (negb (omitEmpty ft) || negb (isEmptyValue (Type_ ft) v))
  then
    match N v with
    | Ok nv =>
        if Anonymous ft then
          match nv with
          | VMap TString TInterface nm => structLoop N rest (mapMerge nm m)
          | _ => structLoop N rest (mapSet (fieldKey ft) nv m)
          end
        else structLoop N rest (mapSet (fieldKey ft) nv m)
    | Err e => Err e
    | Panic => Panic
    end
  else structLoop N rest m.
Proof.
  unfold exported, omitEmpty, fieldKey. cbn [structLoop].
  destruct (String.eqb (PkgPath ft) ""); [|reflexivity].
  destruct (processStructTag (Tag ft)) as [name omitempty].
  cbn [fst snd andb].
  destruct (negb omitempty || negb (isEmptyValue (Type_ ft) v)); [|reflexivity].
  destruct (N v) as [nv|e|]; try reflexivity.
  destruct (Anonymous ft); reflexivity.
Qed.

Lemma Normalize_struct (name : string) (fs : list (StructField * rvalue)) :
  Normalize (VStruct (OtherT name) fs) =
  (m <- structLoop Normalize fs [] ;; Ok (VMapSI m)).
Proof. reflexivity. Qed.

Lemma structLoop_app (N : rvalue -> outcome rvalue)
  (fs gs : list (StructField * rvalue)) :
  forall m, structLoop N (fs ++ gs) m = (m' <- structLoop N fs m ;; structLoop N gs m').
Proof.
  induction fs as [|[ft v] fs IH]; intro m.
  - reflexivity.
  - rewrite <- app_comm_cons, !structLoop_cons.
    destruct (exported ft && _); [|apply IH].
    destruct (N v) as [nv|e|]; try reflexivity.
    destruct (Anonymous ft); [|apply IH].
    destruct nv; try apply IH.
    destruct key; try apply IH.
    destruct elem; apply IH.
Qed.

(** A key once in the map stays: the loop only assigns. *)
Lemma structLoop_keeps (N : rvalue -> outcome rvalue) (k : string)
  (fs : list (StructField * rvalue)) :
  forall m m', structLoop N fs m = Ok m' ->
               mapGet k m <> None -> mapGet k m' <> None.
Proof.
  induction fs as [|[ft v] fs IH]; intros m m' H Hk.
  - inversion H. subst. exact Hk.
  - rewrite structLoop_cons in H.
    destruct (exported ft && _); [|eapply IH; eauto].
    destruct (N v) as [nv|e|]; try discriminate H.
    destruct (Anonymous ft);
      [|eapply IH; [exact H | apply mapSet_keeps; exact Hk]].
    destruct nv; try (eapply IH; [exact H | apply mapSet_keeps; exact Hk]).
    destruct key; try (eapply IH; [exact H | apply mapSet_keeps; exact Hk]).
    destruct elem; try (eapply IH; [exact H | apply mapSet_keeps; exact Hk]).
    eapply IH; [exact H | apply mapMerge_keeps; exact Hk].
Qed.

(** An empty field tagged [omitempty] leaves the map as it is. *)
Lemma structLoop_skip (N : rvalue -> outcome rvalue) (ft : StructField)
  (v : rvalue) (post : list (StructField * rvalue)) (m : gomap) :
  omitEmpty ft = true -> isEmptyValue (Type_ ft) v = true ->
  structLoop N ((ft, v) :: post) m = structLoop N post m.
Proof.
  intros Ho He. rewrite structLoop_cons, Ho, He.
  rewrite andb_false_r. reflexivity.
Qed.

(** An exported field that is not skipped is stored under its key, unless
    it is embedded and its normalised value is a map. *)
Lemma structLoop_store (N : rvalue -> outcome rvalue) (ft : StructField)
  (v : rvalue) (post : list (StructField * rvalue)) (m m' : gomap) :
  exported ft = true ->
  isEmptyValue (Type_ ft) v = false ->
  (Anonymous ft = false \/ forall nm, N v <> Ok (VMapSI nm)) ->
  structLoop N ((ft, v) :: post) m = Ok m' ->
  exists nv, N v = Ok nv /\ structLoop N post (mapSet (fieldKey ft) nv m) = Ok m'.
Proof.
  intros Hx He Ha H. rewrite structLoop_cons, Hx, He in H.
  rewrite orb_true_r in H. cbn [andb] in H.
  destruct (N v) as [nv|e|] eqn:EN; try discriminate H.
  exists nv. split; [reflexivity|].
  destruct (Anonymous ft) eqn:EA; [|exact H].
  destruct Ha as [Ha|Ha]; [discriminate Ha|].
  destruct nv; try exact H.
  destruct key; try exact H.
  destruct elem; try exact H.
  exfalso. exact (Ha m0 eq_refl).
Qed.

(** C5 as stated fails on three records.  In [recordAB] the field [A] is
    tagged [x,omitempty] and holds 0, yet the key [x] is in the result,
    put there by the field [B].  In [recordEmbedded] the embedded field is
    tagged [inner,omitempty] and is not empty, yet the key [inner] is not
    in the result, because the map of an embedded field is merged into
    its parent.  In [recordZero] the field tagged [in,omitempty] holds the
    zero value of its struct type, which [isEmptyValue] does not count as
    empty, and the key [in] is in the result. *)
Lemma omitempty_counterexample :
  (exported fieldA = true /\ omitEmpty fieldA = true /\
   fieldKey fieldA = "x" /\
   isEmptyValue (Type_ fieldA) (VInt W0 0) = true /\
   Normalize recordAB = Ok (VMapSI [("x", VInt W64 7)]) /\
   mapGet "x" [("x", VInt W64 7)] = Some (VInt W64 7)) /\
  (exported fieldInner = true /\ omitEmpty fieldInner = true /\
   fieldKey fieldInner = "inner" /\
   isEmptyValue (Type_ fieldInner)
     (VStruct (OtherT "Inner") [ (fieldX, VInt W0 1) ]) = false /\
   Normalize recordEmbedded = Ok (VMapSI [("X", VInt W64 1)]) /\
   mapGet "inner" [("X", VInt W64 1)] = None) /\
  (exported fieldIn = true /\ omitEmpty fieldIn = true /\
   fieldKey fieldIn = "in" /\
   isEmptyValue (Type_ fieldIn)
     (VStruct (OtherT "Inner") [ (fieldX, VInt W0 0) ]) = false /\
   Normalize recordZero = Ok (VMapSI [("in", VMapSI [("X", VInt W64 0)])]) /\
   mapGet "in" [("in", VMapSI [("X", VInt W64 0)])] =
     Some (VMapSI [("X", VInt W64 0)])).
Proof. repeat split. Qed.

(** The example of the specification: with [Name = ""] the result has no
    key [clover], with [Name = "x"] it is [{"clover": "x"}]. *)
Lemma Normalize_recordName :
  Normalize (recordName "") = Ok (VMapSI []) /\
  Normalize (recordName "x") = Ok (VMapSI [("clover", VString "x")]).
Proof. split; reflexivity. Qed.

(** C5, amended: a field tagged [omitempty] that is empty for its kind
    ([isEmptyValue]) is skipped, so the record normalises as the record
    without that field does (its key is in the result only if another
    field puts it there); an exported field tagged [omitempty] that is not
    empty has its key in the result whenever the record normalises,
    unless it is an embedded field whose normalised value is a map. *)
Theorem omitempty_field (name : string) (pre : list (StructField * rvalue))
  (ft : StructField) (v : rvalue) (post : list (StructField * rvalue)) :
  omitEmpty ft = true ->
  (isEmptyValue (Type_ ft) v = true ->
   Normalize (VStruct (OtherT name) (pre ++ (ft, v) :: post)) =
   Normalize (VStruct (OtherT name) (pre ++ post))) /\
  (isEmptyValue (Type_ ft) v = false ->
   exported ft = true ->
   (Anonymous ft = false \/ forall nm, Normalize v <> Ok (VMapSI nm)) ->
   forall m,
     Normalize (VStruct (OtherT name) (pre ++ (ft, v) :: post)) = Ok (VMapSI m) ->
     mapGet (fieldKey ft) m <> None).
Proof.
  intro Ho. split.
  - intro He. rewrite !Normalize_struct, !structLoop_app.
    destruct (structLoop Normalize pre []) as [m1|e|]; try reflexivity.
    cbn [bind]. rewrite structLoop_skip by assumption. reflexivity.
  - intros He Hx Ha m H.
    rewrite Normalize_struct, structLoop_app in H.
    destruct (structLoop Normalize pre []) as [m1|e|]; try discriminate H.
    cbn [bind] in H.
    destruct (structLoop Normalize ((ft, v) :: post) m1) as [m2|e|] eqn:E;
      try discriminate H.
    cbn [bind] in H. inversion H. subst m2.
    destruct (structLoop_store Normalize ft v post m1 m Hx He Ha E)
      as [nv [_ Hpost]].
    apply (structLoop_keeps Normalize (fieldKey ft) post _ m Hpost).
    rewrite mapGet_mapSet_eq. discriminate.
Qed.

(** The theorem at the record of the specification's example. *)
Lemma omitempty_field_witness :
  omitEmpty fieldName = true /\
  Normalize (VStruct (OtherT "T") ([] ++ (fieldName, VString "") :: [])) =
    Normalize (VStruct (OtherT "T") ([] ++ [])) /\
  (forall m,
     Normalize (VStruct (OtherT "T") ([] ++ (fieldName, VString "x") :: []))
       = Ok (VMapSI m) ->
     mapGet (fieldKey fieldName) m <> None).
Proof.
  split; [reflexivity|]. split.
  - exact (proj1 (omitempty_field "T" [] fieldName (VString "") [] eq_refl)
             eq_refl).
  - exact (proj2 (omitempty_field "T" [] fieldName (VString "x") [] eq_refl)
             eq_refl eq_refl (or_introl eq_refl)).
Defined.

(** ** Dot-paths: [lookupField] against the walk of the specification *)

Import document.

Ltac by_map_shape f :=
  let k := fresh "k" in
  let e := fresh "e" in
  let c := fresh "c" in
  destruct f as [ | | | | | | | | | | | | | | k e c | | ];
  try reflexivity;
  destruct k; try reflexivity;
  destruct e; reflexivity.

Lemma asMap_mapOf (f : rvalue) (m : gomap) (ctx : list (gomap * string))
  (field : string) :
  asMap f (Ref m ctx) field =
  match mapOf f with
  | Some child => (Ref child ((m, field) :: ctx), true)
  | None => (NilMap, false)
  end.
Proof. by_map_shape f. Qed.

Lemma pathLookup_cons (s s2 : string) (r : list string) (m : gomap) :
  pathLookup (s :: s2 :: r) m =
  match mapGet s m with
  | Some f =>
      match mapOf f with
      | Some child => pathLookup (s2 :: r) child
      | None => None
      end
  | None => None
  end.
Proof.
  cbn [pathLookup]. destruct (mapGet s m) as [f|]; [|reflexivity].
  by_map_shape f.
Qed.

Lemma setPath_cons (s s2 : string) (r : list string) (v : rvalue) (m : gomap) :
  setPath (s :: s2 :: r) v m =
  mapSet s
    (VMapSI (setPath (s2 :: r) v
               match mapGet s m with
               | Some f => match mapOf f with Some c => c | None => [] end
               | None => []
               end)) m.
Proof.
  cbn [setPath]. destruct (mapGet s m) as [f|]; [|reflexivity].
  by_map_shape f.
Qed.

Lemma Split_nonempty (sep : ascii) (s : string) : Split sep s <> [].
Proof.
  destruct s as [|c s]; simpl; [discriminate|].
  destruct (Ascii.eqb c sep); [discriminate|].
  destruct (Split sep s); discriminate.
Qed.

Lemma lookupLoop_nil (segments : list string) (f : rvalue) (l : string) :
  segments <> [] ->
  lookupLoop false segments NilMap f l = Ok (NilMap, Nil, EmptyString).
Proof. destruct segments; [contradiction | reflexivity]. Qed.

(** Without [force], the loop finds what the walk finds. *)
Lemma lookupLoop_read (segments : list string) :
  forall (cur : gomap) (ctx : list (gomap * string)) (f : rvalue) (l : string),
    segments <> [] ->
    match pathLookup segments cur with
    | Some v =>
        exists cur' ctx',
          lookupLoop false segments (Ref cur ctx) f l = Ok (Ref cur' ctx', v, l)
    | None =>
        lookupLoop false segments (Ref cur ctx) f l = Ok (NilMap, Nil, EmptyString)
    end.
Proof.
  induction segments as [|s rest IH]; intros cur ctx f l Hne; [contradiction|].
  destruct rest as [|s2 r].
  - cbn [pathLookup lookupLoop refGet].
    destruct (mapGet s cur) as [v|]; [|reflexivity].
    rewrite asMap_mapOf. destruct (mapOf v); cbn; eauto.
  - rewrite pathLookup_cons. cbn [lookupLoop refGet].
    destruct (mapGet s cur) as [v|]; [|reflexivity].
    rewrite asMap_mapOf. destruct (mapOf v) as [child|]; cbn [negb].
    + apply (IH child ((cur, s) :: ctx) v l). discriminate.
    + reflexivity.
Qed.

(** With [force], the loop ends on a map, and assigning the leaf there
    yields the field map the specification describes. *)
Lemma lookupLoop_force (segments : list string) :
  forall (cur : gomap) (ctx : list (gomap * string)) (f : rvalue) (l : string),
    segments <> [] ->
    exists cur' ctx' f',
      lookupLoop true segments (Ref cur ctx) f l = Ok (Ref cur' ctx', f', l) /\
      forall v, plug (mapSet (last segments EmptyString) v cur') ctx' =
                plug (setPath segments v cur) ctx.
Proof.
  induction segments as [|s rest IH]; intros cur ctx f l Hne; [contradiction|].
  destruct rest as [|s2 r].
  - cbn [lookupLoop refGet]. 
    destruct (mapGet s cur) as [v|].
    + rewrite asMap_mapOf. destruct (mapOf v); cbn;
        exists cur, ctx, v; split; reflexivity.
    + cbn. exists cur, ctx, Nil. split; reflexivity.
  - cbn [lookupLoop refGet].
    change (last (s :: s2 :: r) EmptyString) with (last (s2 :: r) EmptyString).
    destruct (mapGet s cur) as [v|] eqn:Eg.
    + rewrite asMap_mapOf. destruct (mapOf v) as [child|] eqn:Em;
        cbn [negb orb andb].
      * destruct (IH child ((cur, s) :: ctx) v l) as [c' [x' [f' [H1 H2]]]];
          [discriminate|].
        exists c', x', f'. split; [exact H1|].
        intro w. rewrite H2, setPath_cons, Eg, Em. reflexivity.
      * destruct (IH [] ((mapSet s (VMapSI []) cur, s) :: ctx) (VMapSI []) l)
          as [c' [x' [f' [H1 H2]]]]; [discriminate|].
        exists c', x', f'. split; [exact H1|].
        intro w. rewrite H2, setPath_cons, Eg, Em. cbn [plug].
        rewrite mapSet_mapSet. reflexivity.
    + cbn [asMap negb orb andb].
      destruct (IH [] ((mapSet s (VMapSI []) cur, s) :: ctx) (VMapSI []) l)
        as [c' [x' [f' [H1 H2]]]]; [discriminate|].
      exists c', x', f'. split; [exact H1|].
      intro w. rewrite H2, setPath_cons, Eg. cbn [plug].
      rewrite mapSet_mapSet. reflexivity.
Qed.

(** Reading a path just assigned gives the value assigned. *)
Lemma pathLookup_setPath (segments : list string) (v : rvalue) :
  forall m, segments <> [] -> pathLookup segments (setPath segments v m) = Some v.
Proof.
  induction segments as [|s rest IH]; intros m Hne; [contradiction|].
  destruct rest as [|s2 r].
  - cbn. apply mapGet_mapSet_eq.
  - rewrite setPath_cons, pathLookup_cons, mapGet_mapSet_eq. cbn [mapOf VMapSI].
    apply IH. discriminate.
Qed.

Lemma lookupField_read (name : string) (m : gomap) :
  match pathLookup (Split "." name) m with
  | Some v =>
      exists cur' ctx',
        lookupField name (Some m) false =
        Ok (Ref cur' ctx', v, last (Split "." name) EmptyString)
  | None => lookupField name (Some m) false = Ok (NilMap, Nil, EmptyString)
  end.
Proof.
  unfold lookupField.
  pose proof (Split_nonempty "." name) as Hne.
  pose proof (lookupLoop_read (Split "." name) m [] Nil
                (last (Split "." name) EmptyString) Hne) as H.
  destruct (Split "." name) as [|s rest]; [contradiction|]. exact H.
Qed.

Lemma lookupField_force (name : string) (m : gomap) :
  exists cur' ctx' f',
    lookupField name (Some m) true =
      Ok (Ref cur' ctx', f', last (Split "." name) EmptyString) /\
    forall v, plug (mapSet (last (Split "." name) EmptyString) v cur') ctx' =
              setPath (Split "." name) v m.
Proof.
  unfold lookupField.
  pose proof (Split_nonempty "." name) as Hne.
  pose proof (lookupLoop_force (Split "." name) m [] Nil
                (last (Split "." name) EmptyString) Hne) as H.
  destruct (Split "." name) as [|s rest]; [contradiction|]. exact H.
Qed.

(** ** Materialisation *)

Section DocumentFacts.

Variable codec : Codec.

Lemma mustInitFields_materialised (doc : Document) (m : gomap) :
  fields doc = Some m -> mustInitFields codec doc = Ok doc.
Proof.
  intro H. unfold mustInitFields, initFields. rewrite H. reflexivity.
Qed.

Lemma mustInitFields_ok (doc doc' : Document) :
  mustInitFields codec doc = Ok doc' ->
  msg doc' = msg doc /\
  (exists m, fields doc' = Some m) /\
  (fields doc <> None -> doc' = doc) /\
  (fields doc = None ->
   doc' = {| msg := msg doc; fields := fields doc' |}).
Proof.
  unfold mustInitFields, initFields. intro H.
  destruct (fields doc) as [m|] eqn:Ef.
  - inversion H. subst doc'. rewrite Ef.
    repeat split; eauto. intro Hc. discriminate Hc.
  - assert (Hn : forall d m', Ok d = Ok doc' -> d = {| msg := msg doc; fields := Some m' |} ->
                 msg doc' = msg doc /\
                 (exists m, fields doc' = Some m) /\
                 (@None gomap <> None -> doc' = doc) /\
                 (@None gomap = None -> doc' = {| msg := msg doc; fields := fields doc' |})).
    { intros d m' Hd Hm. inversion Hd. subst. simpl.
      repeat split; eauto. intro Hc. contradiction. }
    destruct (msg doc) as [b|] eqn:Eb.
    + destruct (unmarshal codec b) as [decoded|e|]; try discriminate H.
      destruct (Normalize (VMapSI decoded)) as [n|e|]; try discriminate H.
      destruct n; try discriminate H.
      destruct key; try discriminate H.
      destruct elem; try discriminate H.
      rewrite <- Eb in *. eapply Hn; [exact H|]. rewrite Eb. reflexivity.
    + rewrite <- Eb in *. eapply Hn; [exact H|]. rewrite Eb. reflexivity.
Qed.

Lemma mustInitFields_idem (doc doc' : Document) :
  mustInitFields codec doc = Ok doc' -> mustInitFields codec doc' = Ok doc'.
Proof.
  intro H. destruct (mustInitFields_ok doc doc' H) as [_ [[m Hm] _]].
  exact (mustInitFields_materialised doc' m Hm).
Qed.

(** [Has] and [Get] against the walk of the specification. *)
Lemma Has_Get_pathLookup (name : string) (doc doc' : Document) (m : gomap) :
  mustInitFields codec doc = Ok doc' ->
  fields doc' = Some m ->
  Has codec name doc =
    Ok (match pathLookup (Split "." name) m with Some _ => true | None => false end,
        doc') /\
  Get codec name doc =
    Ok (match pathLookup (Split "." name) m with Some v => v | None => Nil end,
        doc').
Proof.
  intros Hi Hf. unfold Has, Get. rewrite Hi. cbn [bind]. rewrite Hf.
  pose proof (lookupField_read name m) as H.
  destruct (pathLookup (Split "." name) m) as [v|].
  - destruct H as [cur' [ctx' H]]. rewrite H. split; reflexivity.
  - rewrite H. split; reflexivity.
Qed.

(** [Set] after a successful normalisation, against the assignment of the
    specification. *)
Lemma Set_setPath (name : string) (value nv : rvalue) (doc doc1 : Document)
  (m : gomap) :
  mustInitFields codec doc = Ok doc1 ->
  fields doc1 = Some m ->
  Normalize value = Ok nv ->
  Set_ codec name value doc =
  match marshal codec (VMapSI (setPath (Split "." name) nv m)) with
  | Ok b => Ok {| msg := Some b; fields := Some (setPath (Split "." name) nv m) |}
  | _ => Panic
  end.
Proof.
  intros Hi Hf Hn. unfold Set_. rewrite Hi. cbn [bind]. rewrite Hn, Hf.
  destruct (lookupField_force name m) as [cur' [ctx' [f' [H1 H2]]]].
  rewrite H1. cbn [bind]. rewrite H2.
  destruct (marshal codec _); reflexivity.
Qed.

End DocumentFacts.

(** ** [Has] and [Get] *)

(** C8 as stated fails: after [Set("a", nil)] the path [a] is present
    with a null value and [Has] answers true, while on an empty Document
    the path is absent and [Has] answers false; [Get] answers nil in both
    cases. *)
Lemma Has_null_counterexample :
  Set_ refcodec.codec "a" Nil NewDocument = Ok docNullA /\
  pathLookup (Split "." "a") [ ("a", Nil) ] = Some Nil /\
  Has refcodec.codec "a" docNullA = Ok (true, docNullA) /\
  Get refcodec.codec "a" docNullA = Ok (Nil, docNullA) /\
  pathLookup (Split "." "a") [] = None /\
  Has refcodec.codec "a" NewDocument = Ok (false, {| msg := None; fields := Some [] |}) /\
  Get refcodec.codec "a" NewDocument = Ok (Nil, {| msg := None; fields := Some [] |}).
Proof. repeat split. Qed.

(** C8, amended: [Has] answers true exactly when the walk along the path
    finds an entry for every segment, whatever the value found; so a path
    present with a null value gives true and an absent path gives false.
    It is [Get] that answers nil in both cases. *)
Theorem Has_true_iff_path_found (codec : Codec) (name : string)
  (doc doc' : Document) (m : gomap) :
  mustInitFields codec doc = Ok doc' ->
  fields doc' = Some m ->
  (forall v, pathLookup (Split "." name) m = Some v ->
     Has codec name doc = Ok (true, doc') /\ Get codec name doc = Ok (v, doc')) /\
  (pathLookup (Split "." name) m = None ->
     Has codec name doc = Ok (false, doc') /\ Get codec name doc = Ok (Nil, doc')).
Proof.
  intros Hi Hf.
  destruct (Has_Get_pathLookup codec name doc doc' m Hi Hf) as [HH HG].
  split.
  - intros v Hv. rewrite Hv in HH, HG. split; assumption.
  - intro Hv. rewrite Hv in HH, HG. split; assumption.
Qed.

(** The theorem at the Document with a null field [a], for the paths [a]
    (present, null) and [b] (absent). *)
Lemma Has_true_iff_path_found_witness :
  mustInitFields refcodec.codec docNullA = Ok docNullA /\
  fields docNullA = Some [ ("a", Nil) ] /\
  (Has refcodec.codec "a" docNullA = Ok (true, docNullA) /\
   Get refcodec.codec "a" docNullA = Ok (Nil, docNullA)) /\
  (Has refcodec.codec "b" docNullA = Ok (false, docNullA) /\
   Get refcodec.codec "b" docNullA = Ok (Nil, docNullA)).
Proof.
  split; [reflexivity|]. split; [reflexivity|]. split.
  - exact (proj1 (Has_true_iff_path_found refcodec.codec "a" docNullA docNullA
                    [ ("a", Nil) ] eq_refl eq_refl) Nil eq_refl).
  - exact (proj2 (Has_true_iff_path_found refcodec.codec "b" docNullA docNullA
                    [ ("a", Nil) ] eq_refl eq_refl) eq_refl).
Defined.

(** ** [Set] *)

(** C4: on an empty Document, [Set("a.b.c", 5)] produces the field map
    [{"a": {"b": {"c": 5}}}], after which [Get("a.b.c")] is 5 and
    [Get("a.b.x")] is nil, without a panic; and in general, when the value
    normalises, [Set] turns every intermediate segment that is missing or
    not a map into a map, assigns the leaf, and caches the bytes the codec
    produces for the new field map. *)
Theorem Set_creates_nested_maps (codec : Codec) :
  (forall b,
     marshal codec (VMapSI mapABC) = Ok b ->
     Set_ codec "a.b.c" (VInt W0 5) NewDocument =
       Ok {| msg := Some b; fields := Some mapABC |} /\
     Get codec "a.b.c" {| msg := Some b; fields := Some mapABC |} =
       Ok (VInt W64 5, {| msg := Some b; fields := Some mapABC |}) /\
     Get codec "a.b.x" {| msg := Some b; fields := Some mapABC |} =
       Ok (Nil, {| msg := Some b; fields := Some mapABC |}) /\
     Get codec "a.x.c" {| msg := Some b; fields := Some mapABC |} =
       Ok (Nil, {| msg := Some b; fields := Some mapABC |})) /\
  (forall name value nv doc doc1 m b,
     mustInitFields codec doc = Ok doc1 ->
     fields doc1 = Some m ->
     Normalize value = Ok nv ->
     marshal codec (VMapSI (setPath (Split "." name) nv m)) = Ok b ->
     Set_ codec name value doc =
       Ok {| msg := Some b; fields := Some (setPath (Split "." name) nv m) |} /\
     Get codec name
       {| msg := Some b; fields := Some (setPath (Split "." name) nv m) |} =
       Ok (nv, {| msg := Some b; fields := Some (setPath (Split "." name) nv m) |})).
Proof.
  assert (General : forall name value nv doc doc1 m b,
     mustInitFields codec doc = Ok doc1 ->
     fields doc1 = Some m ->
     Normalize value = Ok nv ->
     marshal codec (VMapSI (setPath (Split "." name) nv m)) = Ok b ->
     Set_ codec name value doc =
       Ok {| msg := Some b; fields := Some (setPath (Split "." name) nv m) |} /\
     Get codec name
       {| msg := Some b; fields := Some (setPath (Split "." name) nv m) |} =
       Ok (nv, {| msg := Some b; fields := Some (setPath (Split "." name) nv m) |})).
  { intros name value nv doc doc1 m b Hi Hf Hn Hb. split.
    - rewrite (Set_setPath codec name value nv doc doc1 m Hi Hf Hn), Hb.
      reflexivity.
    - destruct (Has_Get_pathLookup codec name
                  {| msg := Some b; fields := Some (setPath (Split "." name) nv m) |}
                  {| msg := Some b; fields := Some (setPath (Split "." name) nv m) |}
                  (setPath (Split "." name) nv m) eq_refl eq_refl) as [_ HG].
      rewrite HG, pathLookup_setPath by apply Split_nonempty. reflexivity. }
  split; [|exact General].
  intros b Hb.
  destruct (General "a.b.c" (VInt W0 5) (VInt W64 5) NewDocument
              {| msg := None; fields := Some [] |} [] b eq_refl eq_refl eq_refl Hb)
    as [HS HG].
  split; [exact HS|]. split; [exact HG|]. split; reflexivity.
Qed.

(** The theorem under the reference codec. *)
Lemma Set_creates_nested_maps_witness :
  Set_ refcodec.codec "a.b.c" (VInt W0 5) NewDocument = Ok docABC /\
  Get refcodec.codec "a.b.c" docABC = Ok (VInt W64 5, docABC) /\
  Get refcodec.codec "a.b.x" docABC = Ok (Nil, docABC) /\
  Get refcodec.codec "a.x.c" docABC = Ok (Nil, docABC).
Proof.
  exact (proj1 (Set_creates_nested_maps refcodec.codec) _ eq_refl).
Defined.

(** C3 as stated fails on a Document whose cached bytes do not decode to
    a map, such as the one [Decode] builds from the byte [0xc1] or the one
    [NewDocumentFrom] builds from the integer 5: [Set] materialises the
    Document before it normalises the value, and panics. *)
Lemma Set_corrupt_counterexample :
  Normalize VFunc = Err (ErrInvalidDtype TFunc) /\
  Decode (Some [ "193"%byte ]) = Ok corruptDoc /\
  Set_ refcodec.codec "a" VFunc corruptDoc = Panic /\
  NewDocumentFrom refcodec.codec (VInt W0 5) =
    Ok {| msg := Some [ "005"%byte ]; fields := None |} /\
  Set_ refcodec.codec "a" VFunc {| msg := Some [ "005"%byte ]; fields := None |}
    = Panic.
Proof. repeat split. Qed.

(** C3, amended: when the normalisation of the value fails, [Set] on a
    Document that materialises returns normally and leaves the cached
    bytes and the materialised field map as they were (a Document that
    was already materialised is returned unchanged; one that was not has
    become materialised); on a Document that does not materialise, [Set]
    panics. *)
Theorem Set_ignores_failed_normalization (codec : Codec) (name : string)
  (value : rvalue) (e : error) (doc : Document) :
  Normalize value = Err e ->
  (forall doc1,
     mustInitFields codec doc = Ok doc1 ->
     Set_ codec name value doc = Ok doc1 /\
     msg doc1 = msg doc /\
     fieldMap codec doc1 = fieldMap codec doc /\
     (fields doc <> None -> doc1 = doc)) /\
  (mustInitFields codec doc = Panic -> Set_ codec name value doc = Panic).
Proof.
  intro Hn. split.
  - intros doc1 Hi.
    destruct (mustInitFields_ok codec doc doc1 Hi) as [Hm [_ [Hs _]]].
    split; [unfold Set_; rewrite Hi; cbn [bind]; rewrite Hn; reflexivity|].
    split; [exact Hm|]. split; [|exact Hs].
    unfold fieldMap. rewrite Hi, (mustInitFields_idem codec doc doc1 Hi).
    reflexivity.
  - intro Hp. unfold Set_. rewrite Hp. reflexivity.
Qed.

(** The theorem at a function value assigned into the Document
    [{"a": {"b": {"c": 5}}}]. *)
Lemma Set_ignores_failed_normalization_witness :
  Normalize VFunc = Err (ErrInvalidDtype TFunc) /\
  mustInitFields refcodec.codec docABC = Ok docABC /\
  Set_ refcodec.codec "a.b" VFunc docABC = Ok docABC /\
  msg docABC = msg docABC /\
  fieldMap refcodec.codec docABC = fieldMap refcodec.codec docABC /\
  (fields docABC <> None -> docABC = docABC).
Proof.
  split; [reflexivity|]. split; [reflexivity|].
  exact (proj1 (Set_ignores_failed_normalization refcodec.codec "a.b" VFunc
                  (ErrInvalidDtype TFunc) docABC eq_refl) docABC eq_refl).
Defined.

(** ** [Encode] and [Decode] *)

Section RoundTrip.

Variable codec : Codec.

(** What [Set] returns: the materialised Document when the value does not
    normalise, else a Document whose bytes encode its field map. *)
Lemma Set_result (name : string) (value : rvalue) (d d' : Document) :
  Set_ codec name value d = Ok d' ->
  mustInitFields codec d = Ok d' \/
  exists b m, d' = {| msg := Some b; fields := Some m |} /\
              marshal codec (VMapSI m) = Ok b.
Proof.
  unfold Set_. intro H.
  destruct (mustInitFields codec d) as [d1|e|] eqn:Ei; try discriminate H.
  cbn [bind] in H.
  destruct (Normalize value) as [nv|e|]; try discriminate H.
  - right.
    destruct (lookupField name (fields d1) true) as [[[r f] l]|e|];
      try discriminate H.
    cbn [bind] in H. destruct r as [|cur ctx]; try discriminate H.
    destruct (marshal codec _) as [b|e|] eqn:Em; try discriminate H.
    inversion H. eauto.
  - left. inversion H. reflexivity.
Qed.

Lemma consistent_after_init (d d' : Document) :
  consistent codec d -> mustInitFields codec d = Ok d' -> consistent codec d'.
Proof.
  intros Hc Hi.
  destruct (mustInitFields_ok codec d d' Hi) as [Hm [[m Hf] [Hs Hn]]].
  destruct (fields d) as [m0|] eqn:Ef.
  - rewrite (Hs ltac:(discriminate)). exact Hc.
  - unfold consistent. rewrite Hf. left.
    specialize (Hn eq_refl). rewrite Hm.
    unfold fieldMap.
    replace {| msg := msg d; fields := None |} with d
      by (destruct d; simpl in *; subst; reflexivity).
    rewrite Hi. cbn [bind]. rewrite Hf. reflexivity.
Qed.

(** Every Document a client can hold is consistent. *)
Lemma Reachable_consistent (d : Document) :
  Reachable codec d -> consistent codec d.
Proof.
  induction 1 as [ | data | o d Hd | d d' _ IH Hi | name value d d' _ IH Hs
                 | d _ IH ].
  - exact I.
  - exact I.
  - unfold NewDocumentFrom in Hd.
    destruct (marshal codec o); try discriminate Hd.
    inversion Hd. exact I.
  - exact (consistent_after_init d d' IH Hi).
  - destruct (Set_result name value d d' Hs) as [Hi | [b [m [Hd Hm]]]].
    + exact (consistent_after_init d d' IH Hi).
    + subst d'. unfold consistent. cbn [fields msg]. right. eauto.
  - unfold Copy, CopyMap.
    replace {| msg := msg d; fields := option_map (fun m : gomap => m) (fields d) |}
      with d by (destruct d as [b [m|]]; reflexivity).
    exact IH.
Qed.

(** A Document that was never assigned to holds the field map that its
    bytes decode to. *)
Lemma Unassigned_decoded (d : Document) :
  Unassigned codec d ->
  forall m, fields d = Some m ->
            fieldMap codec {| msg := msg d; fields := None |} = Ok (Some m).
Proof.
  induction 1 as [ | data | o d Hd | d d' _ IH Hi | d _ IH ]; intros m Hf.
  - discriminate Hf.
  - discriminate Hf.
  - unfold NewDocumentFrom in Hd.
    destruct (marshal codec o); try discriminate Hd.
    inversion Hd. subst d. discriminate Hf.
  - destruct (mustInitFields_ok codec d d' Hi) as [Hm [_ [Hs Hn]]].
    destruct (fields d) as [m0|] eqn:Ef.
    + rewrite (Hs ltac:(discriminate)) in *. apply IH. congruence.
    + rewrite Hm. unfold fieldMap.
      replace {| msg := msg d; fields := None |} with d
        by (destruct d; simpl in *; subst; reflexivity).
      rewrite Hi. cbn [bind]. rewrite Hf. reflexivity.
  - unfold Copy, CopyMap in *. cbn [fields msg] in *.
    destruct (fields d) as [m0|]; [|discriminate Hf].
    cbn [option_map] in Hf. apply IH. exact Hf.
Qed.

End RoundTrip.

(** C1 as stated fails: [Set("n", uint64(5))] on an empty Document
    leaves a Document a client can hold, whose field map [{"n":
    uint64(5)}] is canonical; the Document decoded from its encoding
    materialises to [{"n": int64(5)}]. *)
Lemma Decode_Encode_uint64_counterexample :
  Set_ refcodec.codec "n" (VUint W64 5) NewDocument = Ok docUint5 /\
  Reachable refcodec.codec docUint5 /\
  canonical (VMapSI [ ("n", VUint W64 5) ]) = true /\
  fieldMap refcodec.codec docUint5 = Ok (Some [ ("n", VUint W64 5) ]) /\
  (bytes <- Encode docUint5 ;; d' <- Decode bytes ;;
   fieldMap refcodec.codec d') = Ok (Some [ ("n", VInt W64 5) ]) /\
  [ ("n", VInt W64 5) ] <> [ ("n", VUint W64 5) ].
Proof.
  split; [reflexivity|].
  split; [exact (Reachable_set refcodec.codec "n" (VUint W64 5) NewDocument
                   docUint5 (Reachable_new refcodec.codec) eq_refl)|].
  split; [reflexivity|]. split; [reflexivity|]. split; [reflexivity|].
  intro H. discriminate H.
Qed.

(** C1, amended: [Encode] returns the cached bytes and [Decode] only
    stores the bytes it is given, neither calling the codec, so that the
    Document decoded from the encoding of [d] has the bytes of [d], and is
    [d] when [d] is not materialised.  When [d] was never assigned to, it
    materialises to the field map of [d].  For every Document a client can
    hold it does so, or else the bytes of [d] are those the codec wrote
    for the field map of [d], and it materialises to what the codec
    decodes from them, normalised. *)
Theorem Decode_Encode_roundtrip (codec : Codec) (d : Document) :
  Encode d = Ok (msg d) /\
  (forall data, Decode data = Ok {| msg := data; fields := None |}) /\
  (bytes <- Encode d ;; d' <- Decode bytes ;; Encode d') = Ok (msg d) /\
  (fields d = None -> (bytes <- Encode d ;; Decode bytes) = Ok d) /\
  (Unassigned codec d ->
   forall m,
     fields d = Some m ->
     (bytes <- Encode d ;; d' <- Decode bytes ;; fieldMap codec d') =
       Ok (Some m)) /\
  (Reachable codec d ->
   forall m,
     fields d = Some m ->
     (bytes <- Encode d ;; d' <- Decode bytes ;; fieldMap codec d') =
       Ok (Some m) \/
     exists b,
       msg d = Some b /\
       marshal codec (VMapSI m) = Ok b /\
       (bytes <- Encode d ;; d' <- Decode bytes ;; fieldMap codec d') =
         match unmarshal codec b with
         | Ok decoded =>
             match Normalize (VMapSI decoded) with
             | Ok (VMap TString TInterface readBack) => Ok (Some readBack)
             | _ => Panic
             end
         | _ => Panic
         end).
Proof.
  split; [reflexivity|]. split; [reflexivity|]. split; [reflexivity|].
  split.
  { intro Hf. cbn [Encode Decode bind]. destruct d as [b f].
    cbn [fields] in Hf. subst f. reflexivity. }
  split.
  { intros Hu m Hf. cbn [Encode Decode bind].
    exact (Unassigned_decoded codec d Hu m Hf). }
  intros Hr m Hf. cbn [Encode Decode bind].
  pose proof (Reachable_consistent codec d Hr) as Hc.
  unfold consistent in Hc. rewrite Hf in Hc.
  destruct Hc as [Hc | [b [Hb Hm]]]; [left; exact Hc|].
  right. exists b. split; [exact Hb|]. split; [exact Hm|].
  rewrite Hb. unfold fieldMap, mustInitFields, initFields. cbn [fields msg].
  destruct (unmarshal codec b) as [decoded|e|]; try reflexivity.
  destruct (Normalize (VMapSI decoded)) as [y|e|]; try reflexivity.
  destruct y as [ | | | | | | | | | | | | | | kt et c | | ]; try reflexivity.
  destruct kt; try reflexivity. destruct et; reflexivity.
Qed.

Lemma docABC_unassigned : Unassigned refcodec.codec docABC.
Proof.
  exact (Unassigned_init refcodec.codec
           {| msg := msg docABC; fields := None |} docABC
           (Unassigned_decode refcodec.codec (msg docABC)) eq_refl).
Defined.

(** The theorem at the Document [{"a": {"b": {"c": 5}}}] decoded from its
    bytes and materialised, under the reference codec. *)
Lemma Decode_Encode_roundtrip_witness :
  Unassigned refcodec.codec docABC /\
  fields docABC = Some mapABC /\
  (bytes <- Encode docABC ;; d' <- Decode bytes ;; fieldMap refcodec.codec d') =
    Ok (Some mapABC).
Proof.
  split; [exact docABC_unassigned|]. split; [reflexivity|].
  exact (proj1 (proj2 (proj2 (proj2 (proj2
           (Decode_Encode_roundtrip refcodec.codec docABC)))))
           docABC_unassigned mapABC eq_refl).
Defined.

(* ===================================================================== *)
(** * Part III: further properties of the code *)
(* ===================================================================== *)

(** ** Maps with unique keys *)

Lemma mapSet_absent (k : string) (v : rvalue) (m : gomap) :
  mapGet k m = None -> mapSet k v m = m ++ [(k, v)].
Proof.
  induction m as [|[k' v'] m IH]; simpl; intro H; [reflexivity|].
  destruct (String.eqb k k'); [discriminate H|].
  rewrite IH by exact H. reflexivity.
Qed.

Lemma mapGet_app_absent (k : string) (m1 m2 : gomap) :
  mapGet k m1 = None -> mapGet k (m1 ++ m2) = mapGet k m2.
Proof.
  induction m1 as [|[k' v'] m1 IH]; simpl; intro H; [reflexivity|].
  destruct (String.eqb k k'); [discriminate H|]. exact (IH H).
Qed.

Lemma uniqueKeys_mapSet (k : string) (v : rvalue) (m : gomap) :
  uniqueKeys m = true -> uniqueKeys (mapSet k v m) = true.
Proof.
  induction m as [|[k' v'] m IH]; simpl; intro H; [reflexivity|].
  destruct (mapGet k' m) eqn:Eg; [discriminate H|].
  destruct (String.eqb k k') eqn:E; simpl.
  - rewrite Eg. exact H.
  - apply String.eqb_neq in E.
    rewrite mapGet_mapSet_neq by (intro Hc; apply E; symmetry; exact Hc).
    rewrite Eg. exact (IH H).
Qed.

Lemma forallb_mapSet (P : rvalue -> bool) (k : string) (v : rvalue) (m : gomap) :
  P v = true ->
  forallb (fun kv => P (snd kv)) m = true ->
  forallb (fun kv => P (snd kv)) (mapSet k v m) = true.
Proof.
  intro Hv. induction m as [|[k' v'] m IH]; simpl; intro H.
  - rewrite Hv. reflexivity.
  - apply andb_true_iff in H. destruct H as [H1 H2].
    destruct (String.eqb k k'); simpl.
    + rewrite Hv, H2. reflexivity.
    + rewrite H1, (IH H2). reflexivity.
Qed.

(** The maps with unique keys and canonical values. *)
Lemma canonical_map (m : gomap) :
  canonical (VMapSI m) = true <->
  uniqueKeys m = true /\ forallb (fun kv => canonical (snd kv)) m = true.
Proof. simpl. apply andb_true_iff. Qed.

Lemma canonical_mapSet (k : string) (v : rvalue) (m : gomap) :
  canonical v = true ->
  canonical (VMapSI m) = true -> canonical (VMapSI (mapSet k v m)) = true.
Proof.
  intros Hv Hm. apply canonical_map in Hm. destruct Hm as [H1 H2].
  apply canonical_map. split.
  - apply uniqueKeys_mapSet. exact H1.
  - apply forallb_mapSet; assumption.
Qed.

Lemma canonical_mapMerge (src : gomap) :
  forall m,
    forallb (fun kv => canonical (snd kv)) src = true ->
    canonical (VMapSI m) = true -> canonical (VMapSI (mapMerge src m)) = true.
Proof.
  unfold mapMerge. induction src as [|[k v] src IH]; intros m Hs Hm; simpl.
  - exact Hm.
  - simpl in Hs. apply andb_true_iff in Hs. destruct Hs as [Hv Hs].
    apply IH; [exact Hs|]. apply canonical_mapSet; assumption.
Qed.

(** ** What [Normalize] returns *)

Lemma sliceLoop_canonical (N : rvalue -> outcome rvalue) (l : list rvalue) :
  Forall (fun x => forall y, N x = Ok y -> canonical y = true) l ->
  forall s, sliceLoop N l = Ok s -> forallb canonical s = true.
Proof.
  induction 1 as [|x l Hx _ IH]; intros s H; simpl in H.
  - inversion H. reflexivity.
  - destruct (N x) as [y|e|] eqn:Ex; try discriminate H. cbn [bind] in H.
    destruct (sliceLoop N l) as [s'|e|]; try discriminate H. cbn [bind] in H.
    inversion H. simpl. rewrite (Hx y eq_refl), (IH s' eq_refl). reflexivity.
Qed.

Lemma mapLoop_canonical (N : rvalue -> outcome rvalue)
  (entries : list (string * rvalue)) :
  Forall (fun kv => forall y, N (snd kv) = Ok y -> canonical y = true) entries ->
  forall m m', canonical (VMapSI m) = true ->
               mapLoop N entries m = Ok m' -> canonical (VMapSI m') = true.
Proof.
  induction 1 as [|[k x] l Hx _ IH]; intros m m' Hm H; simpl in H.
  - inversion H. subst. exact Hm.
  - cbn [snd] in Hx.
    destruct (N x) as [y|e|] eqn:Ex; try discriminate H. cbn [bind] in H.
    apply (IH (mapSet k y m) m'); [|exact H].
    apply canonical_mapSet; [exact (Hx y eq_refl) | exact Hm].
Qed.

Lemma structLoop_canonical (N : rvalue -> outcome rvalue)
  (fs : list (StructField * rvalue)) :
  Forall (fun fv => forall y, N (snd fv) = Ok y -> canonical y = true) fs ->
  forall m m', canonical (VMapSI m) = true ->
               structLoop N fs m = Ok m' -> canonical (VMapSI m') = true.
Proof.
  induction 1 as [|[ft x] l Hx _ IH]; intros m m' Hm H.
  - inversion H. subst. exact Hm.
  - rewrite structLoop_cons in H.
    destruct (exported ft && _); [|exact (IH m m' Hm H)].
    cbn [snd] in Hx.
    destruct (N x) as [y|e|] eqn:Ex; try discriminate H.
    pose proof (Hx y eq_refl) as Hy.
    assert (Hset : canonical (VMapSI (mapSet (fieldKey ft) y m)) = true)
      by (apply canonical_mapSet; assumption).
    destruct (Anonymous ft); [|exact (IH _ m' Hset H)].
    destruct y; try exact (IH _ m' Hset H).
    destruct key; try exact (IH _ m' Hset H).
    destruct elem; try exact (IH _ m' Hset H).
    apply (IH (mapMerge m0 m) m'); [|exact H].
    apply canonical_map in Hy. destruct Hy as [_ Hy].
    apply canonical_mapMerge; assumption.
Qed.

Lemma structural_stop (N : rvalue -> outcome rvalue) (rt : rtype) (rv : rvalue) :
  match rv with
  | VMarshaler _ _ | VPtr _ (Some _) => False
  | _ => True
  end ->
  structural N rt rv rv = byKind N rv rt.
Proof.
  intro H. rewrite structural_byKind by reflexivity.
  destruct rv; try contradiction; try reflexivity.
  destruct p; [contradiction | reflexivity].
Qed.

Lemma byKind_canonical (N : rvalue -> outcome rvalue) (rv : rvalue)
  (rt : rtype) (y : rvalue) :
  strip rv = rv ->
  childrenSatisfy (fun x => forall y, N x = Ok y -> canonical y = true) rv ->
  byKind N rv rt = Ok y -> canonical y = true.
Proof.
  intros Hs Hc H. unfold byKind in H.
  destruct (Kind_eqb (KindOf rt) KPtr); [inversion H; reflexivity|].
  destruct (KindOf rt); try discriminate H;
    try (inversion H; reflexivity).
  - (* array *)
    unfold normalizeSlice in H. rewrite Hs in H.
    destruct rv; try discriminate H;
      (destruct (Kind_eqb (KindOf elem) KUint8) eqn:Ek;
       [inversion H; subst; simpl; rewrite Ek; reflexivity|];
       destruct (sliceLoop N l) as [s|e|] eqn:El; try discriminate H;
       cbn [bind] in H; inversion H; simpl;
       exact (sliceLoop_canonical N l Hc s El)).
  - (* map *)
    unfold normalizeMap in H. rewrite Hs in H.
    destruct rv; try discriminate H.
    destruct (negb (Kind_eqb (KindOf key) KString)); try discriminate H.
    destruct (mapLoop N m []) as [m'|e|] eqn:El; try discriminate H.
    cbn [bind] in H. inversion H.
    exact (mapLoop_canonical N m Hc [] m' eq_refl El).
  - (* slice *)
    unfold normalizeSlice in H. rewrite Hs in H.
    destruct rv; try discriminate H;
      (destruct (Kind_eqb (KindOf elem) KUint8) eqn:Ek;
       [inversion H; subst; simpl; rewrite Ek; reflexivity|];
       destruct (sliceLoop N l) as [s|e|] eqn:El; try discriminate H;
       cbn [bind] in H; inversion H; simpl;
       exact (sliceLoop_canonical N l Hc s El)).
  - (* struct *)
    unfold normalizeStruct in H. rewrite Hs in H.
    destruct rv; try discriminate H.
    destruct (structLoop N fs []) as [m'|e|] eqn:El; try discriminate H.
    cbn [bind] in H. inversion H.
    exact (structLoop_canonical N fs Hc [] m' eq_refl El).
Qed.

Lemma Forall_forallb_impl (A : Type) (f : A -> bool) (Q : A -> Prop) (l : list A) :
  Forall (fun x => f x = true -> Q x) l -> forallb f l = true -> Forall Q l.
Proof.
  induction 1 as [|x l Hx _ IH]; intro H; [constructor|].
  simpl in H. apply andb_true_iff in H. destruct H as [H1 H2].
  constructor; [exact (Hx H1) | exact (IH H2)].
Qed.

Ltac by_stop Hc :=
  match goal with
  | H : structural _ _ ?v ?v = Ok ?y |- _ =>
      rewrite structural_stop in H by exact I;
      exact (byKind_canonical _ v _ y eq_refl Hc H)
  end.

Ltac to_structural H :=
  match type of H with
  | Normalize ?v = Ok ?y =>
      change (structural Normalize (TypeOf v) v v = Ok y) in H
  end.

Ltac leaf_case :=
  split;
  [ intros _ y H; to_structural H; by_stop I
  | intros _ rt y H; by_stop I ].

(** Both at the places where [Normalize] is called and behind a pointer,
    a regular value gives a canonical one. *)
Lemma Normalize_canonical_both (v : rvalue) :
  (regular false v = true ->
   forall y, Normalize v = Ok y -> canonical y = true) /\
  (regular true v = true ->
   forall rt y, structural Normalize rt v v = Ok y -> canonical y = true).
Proof.
  induction v as [ | b | w n | w n | n | w x | w | s | | | | e | e p IHp
                 | e l IHl | e l IHl | k e m IHm | id fs IHfs | r v IHv ]
    using rvalue_ind; try leaf_case.
  - (* nil *)
    split; [intros _ y H; inversion H; reflexivity | intros _ rt y H; by_stop I].
  - (* nil pointer *)
    split; [|intros _ rt y H; by_stop I].
    intros _ y H.
    destruct e as [ | | | | | | | | | | | id | | | | ];
      try (to_structural H; by_stop I).
    destruct id; try discriminate H; (to_structural H; by_stop I).
  - (* pointer *)
    destruct IHp as [_ IH2]. split.
    + intros Hr y H. cbn [regular orb] in Hr.
      apply andb_true_iff in Hr. destruct Hr as [Hr1 Hr2].
      destruct e as [ | | | | | | | | | | | id | | | | ];
        try (to_structural H; exact (IH2 Hr1 _ y H)).
      destruct id; try (to_structural H; exact (IH2 Hr1 _ y H)).
      simpl in H. inversion H. subst y.
      destruct p; try discriminate Hr2. destruct id; try discriminate Hr2.
      reflexivity.
    + intros Hr rt y H. cbn [regular orb] in Hr.
      rewrite andb_true_r in Hr.
      destruct rt as [ | | | | | | | | | | | | e' | | | ];
        try (match type of H with
             | structural _ ?t ?v ?v = _ =>
                 rewrite structural_byKind in H by reflexivity;
                 change (byKind Normalize v t = Ok y) in H;
                 exact (byKind_canonical _ v t y eq_refl I H)
             end).
      change (structural Normalize e' p p = Ok y) in H.
      exact (IH2 Hr e' y H).
  - (* slice *)
    assert (Hc : forall b, regular b (VSlice e l) = true ->
              childrenSatisfy
                (fun x => forall y, Normalize x = Ok y -> canonical y = true)
                (VSlice e l)).
    { intros b Hr. cbn [regular] in Hr. cbn [childrenSatisfy].
      apply (Forall_forallb_impl _ (regular false)); [|exact Hr].
      eapply Forall_impl; [|exact IHl]. intros a [Ha _]. exact Ha. }
    split.
    + intros Hr y H. to_structural H. by_stop (Hc false Hr).
    + intros Hr rt y H. by_stop (Hc true Hr).
  - (* array *)
    assert (Hc : forall b, regular b (VArray e l) = true ->
              childrenSatisfy
                (fun x => forall y, Normalize x = Ok y -> canonical y = true)
                (VArray e l)).
    { intros b Hr. cbn [regular] in Hr. cbn [childrenSatisfy].
      apply (Forall_forallb_impl _ (regular false)); [|exact Hr].
      eapply Forall_impl; [|exact IHl]. intros a [Ha _]. exact Ha. }
    split.
    + intros Hr y H. to_structural H. by_stop (Hc false Hr).
    + intros Hr rt y H. by_stop (Hc true Hr).
  - (* map *)
    assert (Hc : forall b, regular b (VMap k e m) = true ->
              childrenSatisfy
                (fun x => forall y, Normalize x = Ok y -> canonical y = true)
                (VMap k e m)).
    { intros b Hr. cbn [regular] in Hr. cbn [childrenSatisfy].
      apply (Forall_forallb_impl _ (fun kv => regular false (snd kv)));
        [|exact Hr].
      eapply Forall_impl; [|exact IHm]. intros a [Ha _]. exact Ha. }
    split.
    + intros Hr y H. to_structural H. by_stop (Hc false Hr).
    + intros Hr rt y H. by_stop (Hc true Hr).
  - (* struct *)
    assert (Hc : forall b, regular b (VStruct id fs) = true ->
              childrenSatisfy
                (fun x => forall y, Normalize x = Ok y -> canonical y = true)
                (VStruct id fs)).
    { intros b Hr. cbn [regular] in Hr. cbn [childrenSatisfy].
      apply (Forall_forallb_impl _ (fun fv => regular false (snd fv)));
        [|exact Hr].
      eapply Forall_impl; [|exact IHfs]. intros a [Ha _]. exact Ha. }
    split.
    + intros Hr y H. destruct id as [ | | name ].
      * inversion H. reflexivity.
      * inversion H. reflexivity.
      * to_structural H. by_stop (Hc false Hr).
    + intros Hr rt y H. by_stop (Hc true Hr).
  - (* a value of a type with MarshalBinary *)
    split.
    + intros _ y H. simpl in H. destruct r as [data [e|]|]; try discriminate H.
      inversion H. reflexivity.
    + intro Hr. discriminate Hr.
Qed.

Lemma sliceLoop_fixed (N : rvalue -> outcome rvalue) (l : list rvalue) :
  Forall (fun x => N x = Ok x) l -> sliceLoop N l = Ok l.
Proof.
  induction 1 as [|x l Hx _ IH]; simpl; [reflexivity|].
  rewrite Hx. cbn [bind]. rewrite IH. reflexivity.
Qed.

Lemma mapLoop_fixed (N : rvalue -> outcome rvalue) (m : gomap) :
  forall acc,
    uniqueKeys m = true ->
    Forall (fun kv => N (snd kv) = Ok (snd kv)) m ->
    (forall k, mapGet k m <> None -> mapGet k acc = None) ->
    mapLoop N m acc = Ok (acc ++ m).
Proof.
  induction m as [|[k v] m IH]; intros acc Hu Hf Hd.
  - simpl. rewrite app_nil_r. reflexivity.
  - simpl in Hu. destruct (mapGet k m) eqn:Ek; [discriminate Hu|].
    inversion Hf as [|? ? Hv Hf']. subst. cbn [snd] in Hv.
    simpl. rewrite Hv. cbn [bind].
    assert (Ha : mapGet k acc = None).
    { apply Hd. simpl. rewrite String.eqb_refl. discriminate. }
    rewrite (mapSet_absent k v acc Ha).
    rewrite IH; [rewrite <- app_assoc; reflexivity | exact Hu | exact Hf' |].
    intros k' Hk'.
    assert (Hne : k' <> k) by (intro Hc; subst k'; contradiction).
    rewrite mapGet_app_absent.
    + simpl. destruct (String.eqb k' k) eqn:E; [|reflexivity].
      apply String.eqb_eq in E. contradiction.
    + apply Hd. simpl. destruct (String.eqb k' k); [discriminate | exact Hk'].
Qed.

(** A canonical value normalises to itself. *)
Lemma canonical_fixed (y : rvalue) : canonical y = true -> Normalize y = Ok y.
Proof.
  induction y as [ | b | w n | w n | n | w x | w | s | | | | e | e p IHp
                 | e l IHl | e l IHl | k e m IHm | id fs IHfs | r v IHv ]
    using rvalue_ind; intro H; simpl in H; try discriminate H;
    try reflexivity.
  - destruct w; try discriminate H; reflexivity.
  - destruct w; try discriminate H; reflexivity.
  - destruct w; try discriminate H; reflexivity.
  - (* slice *)
    destruct (Kind_eqb (KindOf e) KUint8) eqn:Ek.
    + apply Kind_eqb_eq, KindOf_Uint8 in Ek. subst e. reflexivity.
    + destruct e; try discriminate H.
      change (Normalize (VSlice TInterface l))
        with (s <- sliceLoop Normalize l ;; Ok (VSlice TInterface s)).
      rewrite sliceLoop_fixed; [reflexivity|].
      apply (Forall_forallb_impl _ canonical); assumption.
  - (* array *)
    apply Kind_eqb_eq, KindOf_Uint8 in H. subst e. reflexivity.
  - (* map *)
    destruct k; try discriminate H. destruct e; try discriminate H.
    apply andb_true_iff in H. destruct H as [Hu Hv].
    change (Normalize (VMap TString TInterface m))
      with (m' <- mapLoop Normalize m [] ;; Ok (VMapSI m')).
    rewrite (mapLoop_fixed Normalize m []); [reflexivity | exact Hu | |].
    + apply (Forall_forallb_impl _ (fun kv => canonical (snd kv)));
        assumption.
    + reflexivity.
  - (* struct *)
    destruct id; try discriminate H; reflexivity.
Qed.

(** X1. Whatever [Normalize] returns for a regular value belongs to the
    canonical taxonomy: nil, a boolean, an [int64], a [uint64], a
    [float64], a string, a byte sequence, a list or a map with unique
    keys of canonical values, a [time.Time] or a [Value]. *)
Theorem Normalize_returns_canonical (x y : rvalue) :
  regular false x = true -> Normalize x = Ok y -> canonical y = true.
Proof.
  intros Hr H. exact (proj1 (Normalize_canonical_both x) Hr y H).
Qed.

(** The theorem at the record with an embedded field. *)
Lemma Normalize_returns_canonical_witness :
  regular false recordEmbedded = true /\
  Normalize recordEmbedded = Ok (VMapSI [("X", VInt W64 1)]) /\
  canonical (VMapSI [("X", VInt W64 1)]) = true.
Proof.
  split; [reflexivity|]. split; [reflexivity|].
  exact (Normalize_returns_canonical recordEmbedded
           (VMapSI [("X", VInt W64 1)]) eq_refl eq_refl).
Defined.

(** X2. [Normalize] is idempotent on all it returns, not on scalars
    only: the result for a regular value normalises to itself. *)
Theorem Normalize_idempotent (x y : rvalue) :
  regular false x = true -> Normalize x = Ok y -> Normalize y = Ok y.
Proof.
  intros Hr H. apply canonical_fixed.
  exact (proj1 (Normalize_canonical_both x) Hr y H).
Qed.

(** The theorem at a pointer to a record holding a list and a map. *)
Lemma Normalize_idempotent_witness :
  regular false
    (VPtr (TStruct (OtherT "Post"))
       (Some (VStruct (OtherT "Post")
                [ (mkField "Tags" "" "tags" false (TSlice TString),
                   VSlice TString [VString "a"; VString "b"]);
                  (mkField "Votes" "" "" false (TMap TString (TInt W8)),
                   VMap TString (TInt W8) [("up", VInt W8 3)]) ]))) = true /\
  Normalize
    (VMapSI [ ("tags", VSlice TInterface [VString "a"; VString "b"]);
              ("Votes", VMapSI [("up", VInt W64 3)]) ]) =
  Ok (VMapSI [ ("tags", VSlice TInterface [VString "a"; VString "b"]);
               ("Votes", VMapSI [("up", VInt W64 3)]) ]).
Proof.
  split; [reflexivity|].
  exact (Normalize_idempotent
           (VPtr (TStruct (OtherT "Post"))
              (Some (VStruct (OtherT "Post")
                       [ (mkField "Tags" "" "tags" false (TSlice TString),
                          VSlice TString [VString "a"; VString "b"]);
                         (mkField "Votes" "" "" false (TMap TString (TInt W8)),
                          VMap TString (TInt W8) [("up", VInt W8 3)]) ])))
           _ eq_refl eq_refl).
Defined.

(** ** Errors abort the whole normalisation *)

Lemma sliceLoop_app (N : rvalue -> outcome rvalue) (l1 l2 : list rvalue) :
  sliceLoop N (l1 ++ l2) =
  (s1 <- sliceLoop N l1 ;; s2 <- sliceLoop N l2 ;; Ok (s1 ++ s2)).
Proof.
  induction l1 as [|x l1 IH]; simpl.
  - destruct (sliceLoop N l2); reflexivity.
  - destruct (N x) as [y|e|]; try reflexivity. cbn [bind]. rewrite IH.
    destruct (sliceLoop N l1) as [s1|e|]; try reflexivity. cbn [bind].
    destruct (sliceLoop N l2); reflexivity.
Qed.

Lemma mapLoop_app (N : rvalue -> outcome rvalue) (l1 l2 : list (string * rvalue)) :
  forall m, mapLoop N (l1 ++ l2) m = (m' <- mapLoop N l1 m ;; mapLoop N l2 m').
Proof.
  induction l1 as [|[k x] l1 IH]; intro m; simpl; [reflexivity|].
  destruct (N x) as [y|e|]; try reflexivity. cbn [bind]. apply IH.
Qed.

Lemma Normalize_list (e : rtype) (l : list rvalue) :
  Kind_eqb (KindOf e) KUint8 = false ->
  Normalize (VSlice e l) = (s <- sliceLoop Normalize l ;; Ok (VSlice TInterface s)) /\
  Normalize (VArray e l) = (s <- sliceLoop Normalize l ;; Ok (VSlice TInterface s)).
Proof.
  intro H.
  split.
  - change (Normalize (VSlice e l))
      with (if Kind_eqb (KindOf e) KUint8 then Ok (VSlice e l)
            else s <- sliceLoop Normalize l ;; Ok (VSlice TInterface s)).
    rewrite H. reflexivity.
  - change (Normalize (VArray e l))
      with (if Kind_eqb (KindOf e) KUint8 then Ok (VArray e l)
            else s <- sliceLoop Normalize l ;; Ok (VSlice TInterface s)).
    rewrite H. reflexivity.
Qed.

Lemma Normalize_map (k e : rtype) (m : list (string * rvalue)) :
  Normalize (VMap k e m) =
  if negb (Kind_eqb (KindOf k) KString) then Err ErrMapKey
  else m' <- mapLoop Normalize m [] ;; Ok (VMapSI m').
Proof. reflexivity. Qed.

(** X3. The first element, entry or field that fails to normalise makes
    the whole list, map or record fail with its error: when what comes
    before it normalises, nothing of what comes after is looked at and no
    partial result is returned. *)
Theorem Normalize_first_error (x : rvalue) (err : error) :
  Normalize x = Err err ->
  (forall e pre post y,
     KindOf e <> KUint8 ->
     Normalize (VSlice e pre) = Ok y ->
     Normalize (VSlice e (pre ++ x :: post)) = Err err /\
     Normalize (VArray e (pre ++ x :: post)) = Err err) /\
  (forall kt e k pre post y,
     Normalize (VMap kt e pre) = Ok y ->
     Normalize (VMap kt e (pre ++ (k, x) :: post)) = Err err) /\
  (forall name ft pre post y,
     exported ft = true ->
     omitEmpty ft = false \/ isEmptyValue (Type_ ft) x = false ->
     Normalize (VStruct (OtherT name) pre) = Ok y ->
     Normalize (VStruct (OtherT name) (pre ++ (ft, x) :: post)) = Err err).
Proof.
  intro Hx. split; [|split].
  - intros e pre post y He Hpre.
    assert (Hk : Kind_eqb (KindOf e) KUint8 = false).
    { destruct (Kind_eqb (KindOf e) KUint8) eqn:E; [|reflexivity].
      apply Kind_eqb_eq in E. contradiction. }
    destruct (Normalize_list e pre Hk) as [Hs _]. rewrite Hs in Hpre.
    destruct (Normalize_list e (pre ++ x :: post) Hk) as [H1 H2].
    rewrite H1, H2, sliceLoop_app.
    destruct (sliceLoop Normalize pre) as [s|e'|]; try discriminate Hpre.
    simpl. rewrite Hx. split; reflexivity.
  - intros kt e k pre post y Hpre.
    rewrite Normalize_map in Hpre. rewrite Normalize_map.
    destruct (negb (Kind_eqb (KindOf kt) KString)); [discriminate Hpre|].
    rewrite mapLoop_app.
    destruct (mapLoop Normalize pre []) as [m1|e'|]; try discriminate Hpre.
    simpl. rewrite Hx. reflexivity.
  - intros name ft pre post y Hex Hne Hpre.
    rewrite Normalize_struct in Hpre. rewrite Normalize_struct, structLoop_app.
    destruct (structLoop Normalize pre []) as [m1|e'|]; try discriminate Hpre.
    cbn [bind]. rewrite structLoop_cons, Hex, Hx.
    destruct Hne as [Hne|Hne]; rewrite Hne; simpl;
      try rewrite orb_true_r; reflexivity.
Qed.

(** The theorem at a function value after the integer 1: in
    [[]interface{}{1, f}], in [map[string]interface{}{"a": 1, "f": f}] and
    in [struct { A int; F func() }{1, f}]. *)
Lemma Normalize_first_error_witness :
  Normalize VFunc = Err (ErrInvalidDtype TFunc) /\
  Normalize (VSlice TInterface ([VInt W0 1] ++ VFunc :: [])) =
    Err (ErrInvalidDtype TFunc) /\
  Normalize (VMap TString TInterface ([("a", VInt W0 1)] ++ ("f", VFunc) :: [])) =
    Err (ErrInvalidDtype TFunc) /\
  Normalize (VStruct (OtherT "S")
               ([(mkField "A" "" "" false (TInt W0), VInt W0 1)] ++
                (mkField "F" "" "" false TFunc, VFunc) :: [])) =
    Err (ErrInvalidDtype TFunc).
Proof.
  split; [reflexivity|].
  destruct (Normalize_first_error VFunc (ErrInvalidDtype TFunc) eq_refl)
    as [H1 [H2 H3]].
  split; [|split].
  - refine (proj1 (H1 TInterface [VInt W0 1] [] _ _ eq_refl)).
    discriminate.
  - exact (H2 TString TInterface "f" [("a", VInt W0 1)] [] _ eq_refl).
  - exact (H3 "S" (mkField "F" "" "" false TFunc)
             [(mkField "A" "" "" false (TInt W0), VInt W0 1)] [] _
             eq_refl (or_introl eq_refl) eq_refl).
Defined.

(** ** Maps *)

Lemma mapLoop_lookup (N : rvalue -> outcome rvalue) (entries : gomap) :
  forall acc m',
    uniqueKeys entries = true ->
    mapLoop N entries acc = Ok m' ->
    forall k,
      match mapGet k entries with
      | Some v => exists nv, N v = Ok nv /\ mapGet k m' = Some nv
      | None => mapGet k m' = mapGet k acc
      end.
Proof.
  induction entries as [|[k0 v0] r IH]; intros acc m' Hu H k.
  - simpl in *. inversion H. reflexivity.
  - simpl in Hu. destruct (mapGet k0 r) eqn:E0; [discriminate Hu|].
    simpl in H. destruct (N v0) as [nv0|e|] eqn:Ev; try discriminate H.
    cbn [bind] in H.
    pose proof (IH _ _ Hu H k) as Hk. simpl.
    destruct (String.eqb k k0) eqn:E.
    + apply String.eqb_eq in E. subst k0. rewrite E0 in Hk.
      exists nv0. split; [exact Ev|].
      rewrite Hk. apply mapGet_mapSet_eq.
    + apply String.eqb_neq in E.
      destruct (mapGet k r) as [v|]; [exact Hk|].
      rewrite Hk. apply mapGet_mapSet_neq. exact E.
Qed.

(** X4. A map whose key kind is not string is refused, whatever it
    holds; the normalisation of a map with string keys has the same
    keys, each with the normalised value of its entry. *)
Theorem Normalize_map_entries (kt e : rtype) (m : gomap) :
  (KindOf kt <> KString -> Normalize (VMap kt e m) = Err ErrMapKey) /\
  (KindOf kt = KString ->
   uniqueKeys m = true ->
   forall y,
     Normalize (VMap kt e m) = Ok y ->
     exists m',
       y = VMapSI m' /\
       forall k,
         match mapGet k m with
         | Some v => exists nv, Normalize v = Ok nv /\ mapGet k m' = Some nv
         | None => mapGet k m' = None
         end).
Proof.
  split.
  - intro H. rewrite Normalize_map.
    destruct (Kind_eqb (KindOf kt) KString) eqn:E; [|reflexivity].
    apply Kind_eqb_eq in E. contradiction.
  - intros Hk Hu y H. rewrite Normalize_map in H.
    apply Kind_eqb_eq in Hk. rewrite Hk in H. cbn [negb] in H.
    destruct (mapLoop Normalize m []) as [m'|err|] eqn:El; try discriminate H.
    cbn [bind] in H. inversion H. exists m'. split; [reflexivity|].
    intro k. exact (mapLoop_lookup Normalize m [] m' Hu El k).
Qed.

(** The theorem at [map[int]string{}] and at [map[string]int8{"up": 3}]. *)
Lemma Normalize_map_entries_witness :
  Normalize (VMap (TInt W0) TString []) = Err ErrMapKey /\
  exists m',
    VMapSI [("up", VInt W64 3)] = VMapSI m' /\
    forall k,
      match mapGet k [("up", VInt W8 3)] with
      | Some v => exists nv, Normalize v = Ok nv /\ mapGet k m' = Some nv
      | None => mapGet k m' = None
      end.
Proof.
  split.
  - apply (proj1 (Normalize_map_entries (TInt W0) TString [])). discriminate.
  - exact (proj2 (Normalize_map_entries TString (TInt W8) [("up", VInt W8 3)])
             eq_refl eq_refl (VMapSI [("up", VInt W64 3)]) eq_refl).
Defined.

(** ** Pointers *)

Lemma TypeOf_withMethods (r : option callResult) (v : rvalue) :
  TypeOf (withMethods r v) = TypeOf v.
Proof. destruct r; reflexivity. Qed.

(** The dereferencing loop goes through a chain of pointers, whether
    their types have methods or not. *)
Lemma structural_ptrChain (N : rvalue -> outcome rvalue)
  (ms : list (option callResult)) (v : rvalue) :
  structural N (TypeOf (ptrChain ms v)) (ptrChain ms v) (ptrChain ms v) =
  structural N (TypeOf v) v v.
Proof.
  induction ms as [|r ms IH]; [reflexivity|].
  cbn [ptrChain]. rewrite TypeOf_withMethods. cbn [TypeOf].
  destruct r as [r|]; cbn [withMethods structural]; exact IH.
Qed.

(** What the type switch passes on goes to the dereferencing loop. *)
Lemma Normalize_structural (v : rvalue) :
  dereferenced v = true ->
  (forall fs, v <> VStruct TimeT fs) ->
  Normalize v = structural Normalize (TypeOf v) v v.
Proof.
  intros Hd Ht.
  destruct v as [ | | | | | | | | | | | e p | | | | id fs | ];
    try discriminate Hd; try reflexivity.
  - destruct e as [ | | | | | | | | | | | id | | | | ]; try reflexivity.
    destruct id; try discriminate Hd; reflexivity.
  - destruct id; try discriminate Hd; try reflexivity.
    exfalso. exact (Ht fs eq_refl).
Qed.

(** X5. Pointers are transparent, unless the type of the outermost one
    has [MarshalBinary].  For a value that the type switch passes on to
    the dereferencing loop (not nil, not a [time.Time], a [Value], a
    [*time.Time], nor of a type with [MarshalBinary]), behind any chain of
    pointers that are not nil: when the type of the outermost pointer has
    no [MarshalBinary], the chain normalises as the value itself does,
    whatever the methods of the pointers inside; when it has, as [&v] has
    for a [v] of a type that declares the method on the pointer receiver,
    the result is that of the call, whatever the value. *)
Theorem Normalize_pointer_transparent (ms : list (option callResult))
  (v : rvalue) :
  dereferenced v = true ->
  (forall fs, v <> VStruct TimeT fs) ->
  Normalize (ptrChain (None :: ms) v) = Normalize v /\
  (forall r, Normalize (ptrChain (Some r :: ms) v) = marshalBinary r) /\
  (forall n, Normalize (ptrTo n v) = Normalize v).
Proof.
  intros Hd Ht.
  assert (Hchain : forall ms', Normalize (ptrChain (None :: ms') v) =
                               Normalize v).
  { intro ms'. rewrite (Normalize_structural v Hd Ht).
    rewrite <- (structural_ptrChain Normalize ms' v).
    cbn [ptrChain withMethods].
    destruct ms' as [|r ms''].
    - cbn [ptrChain].
      destruct v as [ | | | | | | | | | | | e p | | | | id fs | ];
        try discriminate Hd; try reflexivity.
      destruct id; try reflexivity. exfalso. exact (Ht fs eq_refl).
    - cbn [ptrChain]. rewrite TypeOf_withMethods. reflexivity. }
  split; [exact (Hchain ms)|]. split; [intro r; reflexivity|].
  intro n.
  assert (Hp : forall k, ptrTo k v = ptrChain (repeat None k) v).
  { induction k as [|k IHk]; [reflexivity|].
    cbn [ptrTo repeat ptrChain withMethods]. rewrite IHk. reflexivity. }
  destruct n as [|n]; [reflexivity|].
  rewrite Hp. cbn [repeat]. apply Hchain.
Qed.

(** The theorem at an [int16] behind three pointers, the middle one of
    a type with [MarshalBinary], and at the same chain behind a fourth
    pointer of such a type. *)
Lemma Normalize_pointer_transparent_witness :
  Normalize (ptrChain [None; Some (Returns [x01] None); None] (VInt W16 (-7))) =
    Ok (VInt W64 (-7)) /\
  Normalize (ptrChain [Some (Returns [x01] None); None; None]
               (VInt W16 (-7))) = Ok (bytesValue [x01]).
Proof.
  assert (Ht : forall fs, VInt W16 (-7) <> VStruct TimeT fs)
    by (intros fs H; discriminate H).
  split.
  - exact (eq_trans
             (proj1 (Normalize_pointer_transparent
                       [Some (Returns [x01] None); None] (VInt W16 (-7))
                       eq_refl Ht))
             eq_refl).
  - exact (proj1 (proj2 (Normalize_pointer_transparent [None; None]
                           (VInt W16 (-7)) eq_refl Ht))
             (Returns [x01] None)).
Defined.

(** X6. Behind a pointer the identity of [Value] and [time.Time] is
    lost.  A [*Value] is not passed through as a [Value] is: its content
    is normalised and returned as the map [{"V": ...}].  A [**time.Time]
    is normalised as a record with no exported field: the empty map,
    whatever the instant. *)
Theorem Normalize_identity_lost_behind_pointer (x : rvalue) (wall ext : Z) :
  Normalize (Value x) = Ok (Value x) /\
  Normalize (VPtr (TStruct ValueT) (Some (Value x))) =
    (nx <- Normalize x ;; Ok (VMapSI [("V", nx)])) /\
  Normalize (VPtr (TStruct TimeT) (Some (Time wall ext))) = Ok (Time wall ext) /\
  Normalize (ptrTo 2 (Time wall ext)) = Ok (VMapSI []).
Proof.
  split; [reflexivity|]. split; [|split; reflexivity].
  change (Normalize (VPtr (TStruct ValueT) (Some (Value x))))
    with (m <- structLoop Normalize
                 [(mkField "V" "" "" false TInterface, x)] [] ;;
          Ok (VMapSI m)).
  rewrite structLoop_cons.
  change (exported (mkField "V" "" "" false TInterface)) with true.
  change (omitEmpty (mkField "V" "" "" false TInterface)) with false.
  cbn [negb orb andb].
  destruct (Normalize x) as [nx|e|]; reflexivity.
Qed.

(** ** Struct tags and fields *)

Lemma Split_app (sep : ascii) (p r : string) :
  Split sep (p ++ String sep r) = Split sep p ++ Split sep r.
Proof.
  induction p as [|c p IH]; simpl.
  - rewrite Ascii.eqb_refl. reflexivity.
  - destruct (Ascii.eqb c sep); [rewrite IH; reflexivity|].
    rewrite IH. destruct (Split sep p) as [|h t] eqn:E.
    + exfalso. exact (Split_nonempty sep p E).
    + reflexivity.
Qed.

Lemma Split_noSep (sep : ascii) (s : string) :
  noSep sep s = true -> Split sep s = [s].
Proof.
  induction s as [|c s IH]; simpl; intro H; [reflexivity|].
  apply andb_true_iff in H. destruct H as [H1 H2].
  destruct (Ascii.eqb c sep); [discriminate H1|].
  rewrite (IH H2). reflexivity.
Qed.

(** X7. A struct tag is read as [name[,option...]]: the name is what
    stands before the first comma, and [omitempty] is recognised only as
    the first option, spelled exactly; a tag without a comma is a name
    without options. *)
Theorem processStructTag_parse (name : string) :
  noSep "," name = true ->
  processStructTag name = (name, false) /\
  (forall rest,
     processStructTag (name ++ String "," rest) =
     (name, String.eqb (hd EmptyString (Split "," rest)) "omitempty")) /\
  processStructTag (name ++ ",omitempty") = (name, true) /\
  processStructTag (name ++ ",omitempty,string") = (name, true) /\
  processStructTag (name ++ ",string,omitempty") = (name, false) /\
  processStructTag (name ++ ", omitempty") = (name, false).
Proof.
  intro H.
  assert (G : forall rest,
     processStructTag (name ++ String "," rest) =
     (name, String.eqb (hd EmptyString (Split "," rest)) "omitempty")).
  { intro rest. unfold processStructTag.
    rewrite Split_app, (Split_noSep "," name H).
    pose proof (Split_nonempty "," rest) as Hne.
    destruct (Split "," rest) as [|h t]; [contradiction|]. reflexivity. }
  split; [|split; [exact G|]].
  - unfold processStructTag. rewrite (Split_noSep "," name H). reflexivity.
  - repeat split; rewrite G; reflexivity.
Qed.

(** The theorem at the name [clover]. *)
Lemma processStructTag_parse_witness :
  processStructTag "clover" = ("clover", false) /\
  processStructTag ("clover" ++ ",omitempty") = ("clover", true).
Proof.
  destruct (processStructTag_parse "clover" eq_refl) as [H1 [_ [H2 _]]].
  split; [exact H1 | exact H2].
Defined.

(** X8. A field that is not exported is skipped, and its value is not
    even looked at: the record normalises as the record without that
    field does. *)
Theorem unexported_field_skipped (name : string)
  (pre : list (StructField * rvalue)) (ft : StructField) (v : rvalue)
  (post : list (StructField * rvalue)) :
  exported ft = false ->
  Normalize (VStruct (OtherT name) (pre ++ (ft, v) :: post)) =
  Normalize (VStruct (OtherT name) (pre ++ post)).
Proof.
  intro H. rewrite !Normalize_struct, !structLoop_app.
  destruct (structLoop Normalize pre []) as [m1|e|]; try reflexivity.
  cbn [bind]. rewrite structLoop_cons, H. reflexivity.
Qed.

(** The theorem at a record with an unexported nil [*time.Time], on
    which [Normalize] itself panics. *)
Lemma unexported_field_skipped_witness :
  Normalize (VPtr (TStruct TimeT) None) = Panic /\
  Normalize
    (VStruct (OtherT "S")
       ([ (fieldX, VInt W0 1) ] ++
        (mkField "seen" "main" "" false (TPtr (TStruct TimeT)),
         VPtr (TStruct TimeT) None) :: [])) =
  Ok (VMapSI [("X", VInt W64 1)]).
Proof.
  split; [reflexivity|].
  exact (eq_trans
           (unexported_field_skipped "S" [ (fieldX, VInt W0 1) ]
              (mkField "seen" "main" "" false (TPtr (TStruct TimeT)))
              (VPtr (TStruct TimeT) None) [] eq_refl)
           eq_refl).
Defined.

Lemma mapMerge_contains (k : string) (src : gomap) :
  forall m, mapGet k src <> None -> mapGet k (mapMerge src m) <> None.
Proof.
  unfold mapMerge. induction src as [|[k' v'] src IH]; intros m H; simpl.
  - simpl in H. contradiction.
  - simpl in H. destruct (String.eqb k k') eqn:E.
    + apply String.eqb_eq in E. subst k'.
      apply (mapMerge_keeps k src). rewrite mapGet_mapSet_eq. discriminate.
    + apply IH. exact H.
Qed.

(** X9. Flattening: when an exported embedded field normalises to a map,
    every key of that map is a key of the normalised record. *)
Theorem embedded_map_flattened (name : string)
  (pre : list (StructField * rvalue)) (ft : StructField) (v : rvalue)
  (post : list (StructField * rvalue)) (nm m : gomap) :
  exported ft = true ->
  Anonymous ft = true ->
  omitEmpty ft = false \/ isEmptyValue (Type_ ft) v = false ->
  Normalize v = Ok (VMapSI nm) ->
  Normalize (VStruct (OtherT name) (pre ++ (ft, v) :: post)) = Ok (VMapSI m) ->
  forall k, mapGet k nm <> None -> mapGet k m <> None.
Proof.
  intros Hx Ha Hne Hv H k Hk.
  rewrite Normalize_struct, structLoop_app in H.
  destruct (structLoop Normalize pre []) as [m1|e|]; try discriminate H.
  cbn [bind] in H. rewrite structLoop_cons, Hx, Hv, Ha in H.
  assert (Hc : (true && (negb (omitEmpty ft) || negb (isEmptyValue (Type_ ft) v)))
               = true).
  { destruct Hne as [Hne|Hne]; rewrite Hne; simpl;
      try rewrite orb_true_r; reflexivity. }
  rewrite Hc in H. cbn [VMapSI] in H.
  destruct (structLoop Normalize post (mapMerge nm m1)) as [m2|e|] eqn:E;
    try discriminate H.
  cbn [bind] in H. inversion H. subst m2.
  apply (structLoop_keeps Normalize k post _ m E).
  apply mapMerge_contains. exact Hk.
Qed.

(** The theorem at the record with the embedded [Inner{X: 1}]. *)
Lemma embedded_map_flattened_witness :
  Normalize (VStruct (OtherT "Inner") [ (fieldX, VInt W0 1) ]) =
    Ok (VMapSI [("X", VInt W64 1)]) /\
  Normalize recordEmbedded = Ok (VMapSI [("X", VInt W64 1)]) /\
  mapGet "X" [("X", VInt W64 1)] <> None.
Proof.
  split; [reflexivity|]. split; [reflexivity|].
  refine (embedded_map_flattened "Outer" [] fieldInner
            (VStruct (OtherT "Inner") [ (fieldX, VInt W0 1) ]) []
            [("X", VInt W64 1)] [("X", VInt W64 1)]
            eq_refl eq_refl (or_intror eq_refl) eq_refl eq_refl "X" _).
  discriminate.
Defined.

(** X10. Declaration order is the order of assignment: when two fields
    have the same key, the later one wins.  The last field of a record,
    if it is exported, not skipped and not a flattened embedded map, has
    its normalised value under its key. *)
Theorem last_field_wins (name : string) (pre : list (StructField * rvalue))
  (ft : StructField) (v : rvalue) (m : gomap) :
  exported ft = true ->
  omitEmpty ft = false \/ isEmptyValue (Type_ ft) v = false ->
  Anonymous ft = false \/ (forall nm, Normalize v <> Ok (VMapSI nm)) ->
  Normalize (VStruct (OtherT name) (pre ++ [(ft, v)])) = Ok (VMapSI m) ->
  exists nv, Normalize v = Ok nv /\ mapGet (fieldKey ft) m = Some nv.
Proof.
  intros Hx Hne Ha H.
  rewrite Normalize_struct, structLoop_app in H.
  destruct (structLoop Normalize pre []) as [m1|e|]; try discriminate H.
  cbn [bind] in H. rewrite structLoop_cons, Hx in H.
  assert (Hc : (true && (negb (omitEmpty ft) || negb (isEmptyValue (Type_ ft) v)))
               = true).
  { destruct Hne as [Hne|Hne]; rewrite Hne; simpl;
      try rewrite orb_true_r; reflexivity. }
  rewrite Hc in H.
  destruct (Normalize v) as [nv|e|] eqn:Ev; try discriminate H.
  exists nv. split; [reflexivity|].
  assert (Hm : m = mapSet (fieldKey ft) nv m1).
  { destruct (Anonymous ft) eqn:EA.
    - destruct Ha as [Ha|Ha]; [discriminate Ha|].
      destruct nv; try (cbn in H; inversion H; reflexivity).
      destruct key; try (cbn in H; inversion H; reflexivity).
      destruct elem; try (cbn in H; inversion H; reflexivity).
      exfalso. exact (Ha m0 eq_refl).
    - cbn in H. inversion H. reflexivity. }
  rewrite Hm. apply mapGet_mapSet_eq.
Qed.

(** The theorem at [struct { A int `clover:"x,omitempty"`; B int
    `clover:"x"` }{3, 7}], whose two fields have the key [x]. *)
Lemma last_field_wins_witness :
  Normalize (VStruct (OtherT "S") ([ (fieldA, VInt W0 3) ] ++ [ (fieldB, VInt W0 7) ]))
    = Ok (VMapSI [("x", VInt W64 7)]) /\
  exists nv, Normalize (VInt W0 7) = Ok nv /\
             mapGet (fieldKey fieldB) [("x", VInt W64 7)] = Some nv.
Proof.
  split; [reflexivity|].
  exact (last_field_wins "S" [ (fieldA, VInt W0 3) ] fieldB (VInt W0 7)
           [("x", VInt W64 7)] eq_refl (or_introl eq_refl)
           (or_introl eq_refl) eq_refl).
Defined.

(** ** Paths *)

Lemma pathLookup_nil (q : list string) : pathLookup q [] = None.
Proof. destruct q as [|s [|s2 r]]; reflexivity. Qed.

Lemma setPath_head (s : string) (p' : list string) (v : rvalue) (m : gomap) :
  exists x, setPath (s :: p') v m = mapSet s x m.
Proof.
  destruct p' as [|s2 r].
  - exists v. reflexivity.
  - rewrite setPath_cons. eexists. reflexivity.
Qed.

Lemma pathLookup_head (t : string) (q' : list string) (m1 m2 : gomap) :
  mapGet t m1 = mapGet t m2 ->
  pathLookup (t :: q') m1 = pathLookup (t :: q') m2.
Proof.
  intro H. destruct q' as [|t2 r].
  - exact H.
  - rewrite !pathLookup_cons, H. reflexivity.
Qed.

(** An assignment leaves alone every path that diverges from its own. *)
Lemma pathLookup_setPath_diverge (p : list string) (v : rvalue) :
  forall q m, diverge p q = true ->
              pathLookup q (setPath p v m) = pathLookup q m.
Proof.
  induction p as [|s p' IH]; intros q m H; [discriminate H|].
  destruct q as [|t q']; [discriminate H|].
  cbn [diverge] in H. destruct (String.eqb s t) eqn:E.
  - apply String.eqb_eq in E. subst t.
    destruct p' as [|s2 r]; [discriminate H|].
    destruct q' as [|t2 r']; [discriminate H|].
    rewrite setPath_cons, !pathLookup_cons, mapGet_mapSet_eq.
    cbn [mapOf VMapSI]. rewrite IH by exact H.
    destruct (mapGet s m) as [f|]; [|apply pathLookup_nil].
    destruct (mapOf f); [reflexivity | apply pathLookup_nil].
  - apply String.eqb_neq in E.
    destruct (setPath_head s p' v m) as [x Hx]. rewrite Hx.
    apply pathLookup_head. apply mapGet_mapSet_neq.
    intro Hc. apply E. symmetry. exact Hc.
Qed.

(** Assigning twice at the same path is assigning the second value. *)
Lemma setPath_setPath (p : list string) (v w : rvalue) :
  forall m, setPath p v (setPath p w m) = setPath p v m.
Proof.
  induction p as [|s p' IH]; intro m; [reflexivity|].
  destruct p' as [|s2 r].
  - cbn [setPath]. apply mapSet_mapSet.
  - rewrite (setPath_cons s s2 r w m).
    rewrite (setPath_cons s s2 r v (mapSet s _ m)).
    rewrite mapGet_mapSet_eq. cbn [mapOf VMapSI].
    rewrite IH, mapSet_mapSet. rewrite <- setPath_cons. reflexivity.
Qed.

(** The walk along a path made of two parts is the walk along the
    second part in the map found at the end of the first. *)
Lemma pathLookup_app (a b : list string) :
  forall m,
    a <> [] -> b <> [] ->
    pathLookup (a ++ b) m =
    match pathLookup a m with
    | Some f =>
        match mapOf f with
        | Some c => pathLookup b c
        | None => None
        end
    | None => None
    end.
Proof.
  induction a as [|s a' IH]; intros m Ha Hb; [contradiction|].
  destruct a' as [|s2 r].
  - destruct b as [|t b']; [contradiction|].
    change ([s] ++ t :: b') with (s :: t :: b').
    rewrite pathLookup_cons. reflexivity.
  - change ((s :: s2 :: r) ++ b) with (s :: s2 :: (r ++ b)).
    rewrite !pathLookup_cons.
    destruct (mapGet s m) as [f|]; [|reflexivity].
    destruct (mapOf f) as [c|]; [|reflexivity].
    apply (IH c); [discriminate | exact Hb].
Qed.

Lemma Split_dot_app (p r : string) :
  Split "." (p ++ "." ++ r) = Split "." p ++ Split "." r.
Proof. apply (Split_app "." p r). Qed.

(** ** Documents: how [Set], [Get] and [Has] compose *)

(** X11. [Set] leaves alone every path that diverges from the one it
    assigns (neither is a prefix of the other): [Get] and [Has] answer
    for it after the [Set] as they did before. *)
Theorem Set_leaves_diverging_paths (codec : Codec) (name other : string)
  (value nv : rvalue) (doc doc1 : Document) (m : gomap) (b : list byte) :
  mustInitFields codec doc = Ok doc1 ->
  fields doc1 = Some m ->
  Normalize value = Ok nv ->
  marshal codec (VMapSI (setPath (Split "." name) nv m)) = Ok b ->
  diverge (Split "." name) (Split "." other) = true ->
  exists x h d',
    Get codec other doc = Ok (x, doc1) /\
    Has codec other doc = Ok (h, doc1) /\
    Set_ codec name value doc = Ok d' /\
    Get codec other d' = Ok (x, d') /\
    Has codec other d' = Ok (h, d').
Proof.
  intros Hi Hf Hn Hb Hd.
  destruct (Has_Get_pathLookup codec other doc doc1 m Hi Hf) as [HH HG].
  pose (d' := {| msg := Some b; fields := Some (setPath (Split "." name) nv m) |}).
  destruct (Has_Get_pathLookup codec other d' d'
              (setPath (Split "." name) nv m) eq_refl eq_refl) as [HH' HG'].
  rewrite pathLookup_setPath_diverge in HH', HG' by exact Hd.
  eexists. eexists. exists d'.
  split; [exact HG|]. split; [exact HH|]. split; [|split; assumption].
  rewrite (Set_setPath codec name value nv doc doc1 m Hi Hf Hn), Hb.
  reflexivity.
Qed.

(** The theorem under the reference codec: [Set("a.x", true)] on the
    Document [{"a": {"b": {"c": 5}}}] and the path [a.b.c]. *)
Lemma Set_leaves_diverging_paths_witness :
  exists x h d',
    Get refcodec.codec "a.b.c" docABC = Ok (x, docABC) /\
    Has refcodec.codec "a.b.c" docABC = Ok (h, docABC) /\
    Set_ refcodec.codec "a.x" (VBool true) docABC = Ok d' /\
    Get refcodec.codec "a.b.c" d' = Ok (x, d') /\
    Has refcodec.codec "a.b.c" d' = Ok (h, d').
Proof.
  exact (Set_leaves_diverging_paths refcodec.codec "a.x" "a.b.c"
           (VBool true) (VBool true) docABC docABC mapABC _
           eq_refl eq_refl eq_refl eq_refl eq_refl).
Defined.

(** X12. The last [Set] wins: assigning a path twice leaves the field
    map that assigning the second value alone leaves, whatever bytes the
    codec writes at each of the three calls of [marshal] (taken here as
    three codecs that decode alike, since the encoder may write the
    entries of a map in any order). *)
Theorem Set_twice_last_wins (codec codec1 codec2 : Codec) (name : string)
  (w nw v nv : rvalue) (doc doc1 : Document) (m : gomap)
  (b b1 b2 : list byte) :
  mustInitFields codec doc = Ok doc1 ->
  mustInitFields codec1 doc = Ok doc1 ->
  fields doc1 = Some m ->
  Normalize w = Ok nw ->
  Normalize v = Ok nv ->
  marshal codec (VMapSI (setPath (Split "." name) nv m)) = Ok b ->
  marshal codec1 (VMapSI (setPath (Split "." name) nw m)) = Ok b1 ->
  marshal codec2 (VMapSI (setPath (Split "." name) nv m)) = Ok b2 ->
  exists once twice,
    Set_ codec name v doc = Ok once /\
    (d1 <- Set_ codec1 name w doc ;; Set_ codec2 name v d1) = Ok twice /\
    fields once = Some (setPath (Split "." name) nv m) /\
    fields twice = fields once.
Proof.
  intros Hi Hi1 Hf Hw Hv Hb Hb1 Hb2.
  exists {| msg := Some b; fields := Some (setPath (Split "." name) nv m) |},
         {| msg := Some b2; fields := Some (setPath (Split "." name) nv m) |}.
  split.
  { rewrite (Set_setPath codec name v nv doc doc1 m Hi Hf Hv), Hb.
    reflexivity. }
  split; [|split; reflexivity].
  rewrite (Set_setPath codec1 name w nw doc doc1 m Hi1 Hf Hw), Hb1.
  cbn [bind].
  rewrite (Set_setPath codec2 name v nv
             {| msg := Some b1; fields := Some (setPath (Split "." name) nw m) |}
             {| msg := Some b1; fields := Some (setPath (Split "." name) nw m) |}
             (setPath (Split "." name) nw m) eq_refl eq_refl Hv).
  rewrite setPath_setPath, Hb2. reflexivity.
Qed.

(** The theorem with the reference codec for the single assignment and
    for the first of the two, and the codec that writes instants for the
    second. *)
Lemma Set_twice_last_wins_witness :
  exists once twice,
    Set_ refcodec.codec "a.b" (VInt W0 7) NewDocument = Ok once /\
    (d1 <- Set_ refcodec.codec "a.b" (VString "old") NewDocument ;;
     Set_ reflibs.codec "a.b" (VInt W0 7) d1) = Ok twice /\
    fields once = Some [ ("a", VMapSI [ ("b", VInt W64 7) ]) ] /\
    fields twice = fields once.
Proof.
  exact (Set_twice_last_wins refcodec.codec refcodec.codec reflibs.codec
           "a.b" (VString "old") (VString "old") (VInt W0 7) (VInt W64 7)
           NewDocument {| msg := None; fields := Some [] |} [] _ _ _
           eq_refl eq_refl eq_refl eq_refl eq_refl eq_refl eq_refl eq_refl).
Defined.

(** X13. A path composes: [Get] and [Has] for [p.r] look [r] up in the
    map [Get] returns for [p], and answer absent when that is not a map
    (a scalar, a list, nil, or nothing). *)
Theorem Get_composes (codec : Codec) (p r : string)
  (doc doc1 : Document) (m : gomap) :
  mustInitFields codec doc = Ok doc1 ->
  fields doc1 = Some m ->
  exists f,
    Get codec p doc = Ok (f, doc1) /\
    Get codec (p ++ "." ++ r) doc =
      Ok (match mapOf f with
          | Some c =>
              match pathLookup (Split "." r) c with Some x => x | None => Nil end
          | None => Nil
          end, doc1) /\
    Has codec (p ++ "." ++ r) doc =
      Ok (match mapOf f with
          | Some c =>
              match pathLookup (Split "." r) c with Some _ => true | None => false end
          | None => false
          end, doc1).
Proof.
  intros Hi Hf.
  destruct (Has_Get_pathLookup codec p doc doc1 m Hi Hf) as [_ HG].
  destruct (Has_Get_pathLookup codec (p ++ "." ++ r) doc doc1 m Hi Hf)
    as [HH' HG'].
  rewrite Split_dot_app, pathLookup_app in HH', HG'
    by apply Split_nonempty.
  eexists. split; [exact HG|].
  destruct (pathLookup (Split "." p) m) as [f|].
  - destruct (mapOf f) as [c|]; split; assumption.
  - split; assumption.
Qed.

(** The theorem under the reference codec, at [a.b] and [c]. *)
Lemma Get_composes_witness :
  exists f,
    Get refcodec.codec "a.b" docABC = Ok (f, docABC) /\
    Get refcodec.codec ("a.b" ++ "." ++ "c") docABC =
      Ok (match mapOf f with
          | Some c =>
              match pathLookup (Split "." "c") c with Some x => x | None => Nil end
          | None => Nil
          end, docABC) /\
    Has refcodec.codec ("a.b" ++ "." ++ "c") docABC =
      Ok (match mapOf f with
          | Some c =>
              match pathLookup (Split "." "c") c with Some _ => true | None => false end
          | None => false
          end, docABC).
Proof.
  exact (Get_composes refcodec.codec "a.b" "c" docABC docABC mapABC
           eq_refl eq_refl).
Defined.

(** X14. After [Set] on the path [p.r], the prefix [p] is present and
    holds a map: whatever stood at [p] before, a scalar included, has
    been replaced. *)
Theorem Set_makes_prefix_a_map (codec : Codec) (p r : string)
  (value nv : rvalue) (doc doc1 : Document) (m : gomap) (b : list byte) :
  mustInitFields codec doc = Ok doc1 ->
  fields doc1 = Some m ->
  Normalize value = Ok nv ->
  marshal codec (VMapSI (setPath (Split "." (p ++ "." ++ r)) nv m)) = Ok b ->
  exists d' c,
    Set_ codec (p ++ "." ++ r) value doc = Ok d' /\
    Has codec p d' = Ok (true, d') /\
    Get codec p d' = Ok (VMapSI c, d') /\
    pathLookup (Split "." r) c = Some nv.
Proof.
  intros Hi Hf Hn Hb.
  pose (m' := setPath (Split "." (p ++ "." ++ r)) nv m).
  pose (d' := {| msg := Some b; fields := Some m' |}).
  assert (HL : pathLookup (Split "." (p ++ "." ++ r)) m' = Some nv)
    by (apply pathLookup_setPath; apply Split_nonempty).
  rewrite Split_dot_app, pathLookup_app in HL by apply Split_nonempty.
  destruct (Has_Get_pathLookup codec p d' d' m' eq_refl eq_refl) as [HH HG].
  destruct (pathLookup (Split "." p) m') as [f|]; [|discriminate HL].
  destruct f as [ | | | | | | | | | | | | | | k e c | | ]; try discriminate HL.
  destruct k; try discriminate HL. destruct e; try discriminate HL.
  exists d', c. split; [|split; [exact HH | split; [exact HG | exact HL]]].
  rewrite (Set_setPath codec (p ++ "." ++ r) value nv doc doc1 m Hi Hf Hn), Hb.
  reflexivity.
Qed.

(** The theorem under the reference codec: [Set("a.b", "x")] after
    [Set("a", 5)]. *)
Lemma Set_makes_prefix_a_map_witness :
  exists d' c,
    Set_ refcodec.codec ("a" ++ "." ++ "b") (VString "x")
      {| msg := Some [ "129"%byte; "161"%byte; "a"%byte; "005"%byte ];
         fields := Some [ ("a", VInt W64 5) ] |} = Ok d' /\
    Has refcodec.codec "a" d' = Ok (true, d') /\
    Get refcodec.codec "a" d' = Ok (VMapSI c, d') /\
    pathLookup (Split "." "b") c = Some (VString "x").
Proof.
  exact (Set_makes_prefix_a_map refcodec.codec "a" "b" (VString "x")
           (VString "x")
           {| msg := Some [ "129"%byte; "161"%byte; "a"%byte; "005"%byte ];
              fields := Some [ ("a", VInt W64 5) ] |}
           {| msg := Some [ "129"%byte; "161"%byte; "a"%byte; "005"%byte ];
              fields := Some [ ("a", VInt W64 5) ] |}
           [ ("a", VInt W64 5) ] _ eq_refl eq_refl eq_refl eq_refl).
Defined.

(** ** Documents: bytes and field map *)

(** X15. [Get] and [Has] only materialise: they leave the cached bytes
    as they are, leave a materialised Document untouched, and asked
    again they give the same answer. *)
Theorem accessors_only_materialise (codec : Codec) (name : string)
  (doc : Document) :
  (forall x doc',
     Get codec name doc = Ok (x, doc') ->
     mustInitFields codec doc = Ok doc' /\
     msg doc' = msg doc /\
     (fields doc <> None -> doc' = doc) /\
     Get codec name doc' = Ok (x, doc')) /\
  (forall h doc',
     Has codec name doc = Ok (h, doc') ->
     mustInitFields codec doc = Ok doc' /\
     msg doc' = msg doc /\
     (fields doc <> None -> doc' = doc) /\
     Has codec name doc' = Ok (h, doc')).
Proof.
  split.
  - intros x doc' H.
    destruct (mustInitFields codec doc) as [doc1|e|] eqn:Hi;
      try (unfold Get in H; rewrite Hi in H; discriminate H).
    destruct (mustInitFields_ok codec doc doc1 Hi) as [Hm [[m Hf] [Hs _]]].
    destruct (Has_Get_pathLookup codec name doc doc1 m Hi Hf) as [_ HG].
    rewrite HG in H. inversion H. subst doc'.
    split; [reflexivity|]. split; [exact Hm|]. split; [exact Hs|].
    exact (proj2 (Has_Get_pathLookup codec name doc1 doc1 m
                    (mustInitFields_idem codec doc doc1 Hi) Hf)).
  - intros h doc' H.
    destruct (mustInitFields codec doc) as [doc1|e|] eqn:Hi;
      try (unfold Has in H; rewrite Hi in H; discriminate H).
    destruct (mustInitFields_ok codec doc doc1 Hi) as [Hm [[m Hf] [Hs _]]].
    destruct (Has_Get_pathLookup codec name doc doc1 m Hi Hf) as [HH _].
    rewrite HH in H. inversion H. subst doc'.
    split; [reflexivity|]. split; [exact Hm|]. split; [exact Hs|].
    exact (proj1 (Has_Get_pathLookup codec name doc1 doc1 m
                    (mustInitFields_idem codec doc doc1 Hi) Hf)).
Qed.

(** The theorem under the reference codec, at a Document just decoded
    from the bytes of [{"a": {"b": {"c": 5}}}]. *)
Lemma accessors_only_materialise_witness :
  Get refcodec.codec "a.b.c" {| msg := msg docABC; fields := None |} =
    Ok (VInt W64 5, docABC) /\
  Get refcodec.codec "a.b.c" docABC = Ok (VInt W64 5, docABC).
Proof.
  split; [reflexivity|].
  exact (proj2 (proj2 (proj2
           (proj1 (accessors_only_materialise refcodec.codec "a.b.c"
                     {| msg := msg docABC; fields := None |})
              (VInt W64 5) docABC eq_refl)))).
Defined.

(** ** [SetAll] *)

Lemma SetAll_app (codec : Codec) (l1 l2 : gomap) :
  forall doc,
    SetAll codec (l1 ++ l2) doc = (d <- SetAll codec l1 doc ;; SetAll codec l2 d).
Proof.
  induction l1 as [|[k v] l1 IH]; intro doc; [reflexivity|].
  simpl. destruct (Set_ codec k v doc) as [d|e|]; try reflexivity.
  cbn [bind]. apply IH.
Qed.

Lemma Set_materialised (codec : Codec) (name : string) (value : rvalue)
  (doc d' : Document) :
  Set_ codec name value doc = Ok d' -> exists m, fields d' = Some m.
Proof.
  intro H. destruct (Set_result codec name value doc d' H) as [Hi|[b [m [Hd _]]]].
  - exact (proj1 (proj2 (mustInitFields_ok codec doc d' Hi))).
  - subst d'. exists m. reflexivity.
Qed.

Lemma SetAll_materialised (codec : Codec) (l : gomap) :
  forall doc d' m,
    fields doc = Some m -> SetAll codec l doc = Ok d' ->
    exists m', fields d' = Some m'.
Proof.
  induction l as [|[k v] l IH]; intros doc d' m Hf H.
  - inversion H. subst d'. exists m. exact Hf.
  - simpl in H. destruct (Set_ codec k v doc) as [d1|e|] eqn:Es;
      try discriminate H.
    cbn [bind] in H. destruct (Set_materialised codec k v doc d1 Es) as [m1 Hm1].
    exact (IH d1 d' m1 Hm1 H).
Qed.

(** X16. [SetAll] is not transactional: an entry whose value does not
    normalise is skipped without a trace, the entries before it and
    after it being applied as if it were not there. *)
Theorem SetAll_skips_failing_entry (codec : Codec) (pre post : gomap)
  (k : string) (v : rvalue) (e : error) (doc : Document) (m : gomap) :
  fields doc = Some m ->
  Normalize v = Err e ->
  SetAll codec (pre ++ (k, v) :: post) doc = SetAll codec (pre ++ post) doc.
Proof.
  intros Hf Hn. rewrite !SetAll_app.
  destruct (SetAll codec pre doc) as [d|e'|] eqn:Ep; try reflexivity.
  cbn [bind]. destruct (SetAll_materialised codec pre doc d m Hf Ep) as [m1 Hm1].
  cbn [SetAll]. unfold Set_ at 1.
  rewrite (mustInitFields_materialised codec d m1 Hm1). cbn [bind].
  rewrite Hn. reflexivity.
Qed.

(** The theorem under the reference codec: a function between two
    integers. *)
Lemma SetAll_skips_failing_entry_witness :
  SetAll refcodec.codec ([("a", VInt W0 1)] ++ ("f", VFunc) :: [("b", VInt W0 2)])
    {| msg := None; fields := Some [] |} =
  Ok {| msg := Some [ "130"%byte; "161"%byte; "a"%byte; "001"%byte;
                       "161"%byte; "b"%byte; "002"%byte ];
        fields := Some [ ("a", VInt W64 1); ("b", VInt W64 2) ] |}.
Proof.
  exact (eq_trans
           (SetAll_skips_failing_entry refcodec.codec [("a", VInt W0 1)]
              [("b", VInt W0 2)] "f" VFunc (ErrInvalidDtype TFunc)
              {| msg := None; fields := Some [] |} [] eq_refl eq_refl)
           eq_refl).
Defined.

(** ** Identifier, expiration and validation *)

(** What [Get] and [Has] read at a name without a dot is the entry of
    the top-level field map. *)
Lemma Get_top_level (codec : Codec) (name : string) (doc doc1 : Document)
  (m : gomap) :
  noSep "." name = true ->
  mustInitFields codec doc = Ok doc1 ->
  fields doc1 = Some m ->
  Get codec name doc =
    Ok (match mapGet name m with Some v => v | None => Nil end, doc1) /\
  Has codec name doc =
    Ok (match mapGet name m with Some _ => true | None => false end, doc1).
Proof.
  intros Hs Hi Hf.
  destruct (Has_Get_pathLookup codec name doc doc1 m Hi Hf) as [HH HG].
  rewrite (Split_noSep "." name Hs) in HH, HG. split; assumption.
Qed.

Lemma Set_then_Get (codec : Codec) (name : string) (value nv : rvalue)
  (doc d' : Document) :
  Normalize value = Ok nv ->
  Set_ codec name value doc = Ok d' ->
  Get codec name d' = Ok (nv, d') /\ Has codec name d' = Ok (true, d').
Proof.
  intros Hn Hs.
  destruct (mustInitFields codec doc) as [doc1|e|] eqn:Hi;
    try (unfold Set_ in Hs; rewrite Hi in Hs; discriminate Hs).
  destruct (mustInitFields_ok codec doc doc1 Hi) as [_ [[m Hf] _]].
  rewrite (Set_setPath codec name value nv doc doc1 m Hi Hf Hn) in Hs.
  destruct (marshal codec (VMapSI (setPath (Split "." name) nv m)))
    as [b|e|] eqn:Hb; try discriminate Hs.
  inversion Hs as [Hd]. clear Hs.
  set (d := {| msg := Some b; fields := Some (setPath (Split "." name) nv m) |}).
  destruct (Has_Get_pathLookup codec name d d (setPath (Split "." name) nv m)
              (mustInitFields_materialised codec d _ eq_refl) eq_refl)
    as [HH HG].
  rewrite (pathLookup_setPath (Split "." name) nv m (Split_nonempty "." name))
    in HH, HG.
  split; assumption.
Qed.

Lemma ObjectId_top_level (codec : Codec) (doc doc1 : Document) (m : gomap) :
  mustInitFields codec doc = Ok doc1 ->
  fields doc1 = Some m ->
  ObjectId codec doc =
    Ok (match mapGet ObjectIdField m with
        | Some (VString id) => id
        | _ => EmptyString
        end, doc1).
Proof.
  intros Hi Hf. unfold ObjectId.
  rewrite (proj1 (Get_top_level codec ObjectIdField doc doc1 m eq_refl Hi Hf)).
  cbn [bind]. destruct (mapGet ObjectIdField m) as [v|]; reflexivity.
Qed.

Lemma ExpiresAt_top_level (codec : Codec) (doc doc1 : Document) (m : gomap) :
  mustInitFields codec doc = Ok doc1 ->
  fields doc1 = Some m ->
  ExpiresAt codec doc =
    Ok (match mapGet ExpiresAtField m with
        | Some (VStruct TimeT fs) => Some (VStruct TimeT fs)
        | _ => None
        end, doc1).
Proof.
  intros Hi Hf. unfold ExpiresAt.
  rewrite (proj1 (Get_top_level codec ExpiresAtField doc doc1 m eq_refl Hi Hf)).
  cbn [bind]. destruct (mapGet ExpiresAtField m) as [v|]; [|reflexivity].
  destruct v as [ | | | | | | | | | | | | | | | id fs | ]; try reflexivity.
  destruct id; reflexivity.
Qed.

(** X17. [ObjectId] gives back the string that [Set] stored at [_id], and
    the empty string when the Document has no [_id] or one that is not a
    string. *)
Theorem ObjectId_reads_id (codec : Codec) (doc : Document) :
  (forall s d',
     Set_ codec ObjectIdField (VString s) doc = Ok d' ->
     ObjectId codec d' = Ok (s, d')) /\
  (forall doc1 m,
     mustInitFields codec doc = Ok doc1 ->
     fields doc1 = Some m ->
     (forall s, mapGet ObjectIdField m <> Some (VString s)) ->
     ObjectId codec doc = Ok (EmptyString, doc1)).
Proof.
  split.
  - intros s d' Hs. unfold ObjectId.
    rewrite (proj1 (Set_then_Get codec ObjectIdField (VString s) (VString s)
                      doc d' eq_refl Hs)).
    reflexivity.
  - intros doc1 m Hi Hf Hno.
    rewrite (ObjectId_top_level codec doc doc1 m Hi Hf).
    destruct (mapGet ObjectIdField m) as [v|]; [|reflexivity].
    destruct v; try reflexivity. exfalso. exact (Hno s eq_refl).
Qed.

(** The theorem under the reference codec: an identifier assigned to the
    empty Document, and a Document whose [_id] is a number. *)
Lemma ObjectId_reads_id_witness :
  ObjectId refcodec.codec
    {| msg := Some [ "129"%byte; "163"%byte; "_"%byte; "i"%byte; "d"%byte;
                     "162"%byte; "i"%byte; "d"%byte ];
       fields := Some [ ("_id", VString "id") ] |} =
    Ok ("id",
        {| msg := Some [ "129"%byte; "163"%byte; "_"%byte; "i"%byte; "d"%byte;
                         "162"%byte; "i"%byte; "d"%byte ];
           fields := Some [ ("_id", VString "id") ] |}) /\
  ObjectId refcodec.codec
    {| msg := None; fields := Some [ ("_id", VInt W64 7) ] |} =
    Ok (EmptyString, {| msg := None; fields := Some [ ("_id", VInt W64 7) ] |}).
Proof.
  split.
  - exact (proj1 (ObjectId_reads_id refcodec.codec NewDocument) "id" _ eq_refl).
  - apply (proj2 (ObjectId_reads_id refcodec.codec
                    {| msg := None; fields := Some [ ("_id", VInt W64 7) ] |})
             _ [ ("_id", VInt W64 7) ] eq_refl eq_refl).
    intros s H. discriminate H.
Defined.

(** X18. [ExpiresAt] gives back the instant that [SetExpiresAt] stored,
    and [Has] then finds [_expiresAt]; a Document whose [_expiresAt] is
    missing or not an instant has no expiration, and then [TTL] is -1. *)
Theorem ExpiresAt_reads_expiration (codec : Codec) (libs : Libs)
  (doc : Document) :
  (forall fs d',
     SetExpiresAt codec (VStruct TimeT fs) doc = Ok d' ->
     ExpiresAt codec d' = Ok (Some (VStruct TimeT fs), d') /\
     Has codec ExpiresAtField d' = Ok (true, d')) /\
  (forall doc1 m,
     mustInitFields codec doc = Ok doc1 ->
     fields doc1 = Some m ->
     (forall fs, mapGet ExpiresAtField m <> Some (VStruct TimeT fs)) ->
     ExpiresAt codec doc = Ok (None, doc1) /\
     forall now, TTL codec libs now doc = Ok ((-1)%Z, doc1)).
Proof.
  split.
  - intros fs d' Hs. unfold SetExpiresAt in Hs.
    destruct (Set_then_Get codec ExpiresAtField (VStruct TimeT fs)
                (VStruct TimeT fs) doc d' eq_refl Hs) as [HG HH].
    split; [|exact HH]. unfold ExpiresAt. rewrite HG. reflexivity.
  - intros doc1 m Hi Hf Hno.
    assert (He : ExpiresAt codec doc = Ok (None, doc1)).
    { rewrite (ExpiresAt_top_level codec doc doc1 m Hi Hf).
      destruct (mapGet ExpiresAtField m) as [v|]; [|reflexivity].
      destruct v as [ | | | | | | | | | | | | | | | id fs | ]; try reflexivity.
      destruct id; try reflexivity. exfalso. exact (Hno fs eq_refl). }
    split; [exact He|]. intro now. unfold TTL. rewrite He. reflexivity.
Qed.

(** The theorem with an instant assigned to the empty Document, and at
    a Document whose [_expiresAt] is nil. *)
Lemma ExpiresAt_reads_expiration_witness :
  (exists d',
     SetExpiresAt reflibs.codec (Time 0 5000000000) NewDocument = Ok d' /\
     ExpiresAt reflibs.codec d' = Ok (Some (Time 0 5000000000), d')) /\
  TTL reflibs.codec reflibs.libs (Time 0 0)
    {| msg := None; fields := Some [ ("_expiresAt", Nil) ] |} =
    Ok ((-1)%Z, {| msg := None; fields := Some [ ("_expiresAt", Nil) ] |}).
Proof.
  split.
  - eexists. split; [reflexivity|].
    exact (proj1 (proj1 (ExpiresAt_reads_expiration reflibs.codec reflibs.libs
                           NewDocument) _ _ eq_refl)).
  - refine (proj2 (proj2 (ExpiresAt_reads_expiration reflibs.codec reflibs.libs
                     {| msg := None; fields := Some [ ("_expiresAt", Nil) ] |})
             _ [ ("_expiresAt", Nil) ] eq_refl eq_refl _) (Time 0 0)).
    intros fs H. discriminate H.
Defined.

(** X19. The verdict of [Validate], read off the top-level field map: the
    identifier is the string at [_id] (the empty string when there is
    none) and must parse; after which an [_expiresAt] that is present,
    nil included, and is not an instant is an error, and an absent one is
    not.  [Validate] leaves a materialised Document as it is, and panics,
    rather than returning an error, on a Document that does not
    materialise. *)
Theorem Validate_verdict (codec : Codec) (libs : Libs) (doc : Document) :
  (forall doc1 m,
     mustInitFields codec doc = Ok doc1 ->
     fields doc1 = Some m ->
     Validate codec libs doc =
       Ok (let id := match mapGet ObjectIdField m with
                     | Some (VString id) => id
                     | _ => EmptyString
                     end in
           if uuidFromString libs id then
             match mapGet ExpiresAtField m with
             | None => None
             | Some (VStruct TimeT _) => None
             | Some _ => Some (ErrUser "invalid _expiresAt")
             end
           else Some (ErrUser ("invalid _id: " ++ id)),
           doc1)) /\
  (mustInitFields codec doc = Panic -> Validate codec libs doc = Panic).
Proof.
  split.
  - intros doc1 m Hi Hf. unfold Validate.
    rewrite (ObjectId_top_level codec doc doc1 m Hi Hf). cbn [bind].
    unfold isValidObjectId.
    destruct (uuidFromString libs _); [|reflexivity]. cbn [negb].
    pose proof (mustInitFields_idem codec doc doc1 Hi) as Hi1.
    rewrite (proj2 (Get_top_level codec ExpiresAtField doc1 doc1 m eq_refl Hi1 Hf)).
    cbn [bind].
    rewrite (ExpiresAt_top_level codec doc1 doc1 m Hi1 Hf).
    destruct (mapGet ExpiresAtField m) as [v|]; [|reflexivity].
    destruct v as [ | | | | | | | | | | | | | | | id fs | ]; try reflexivity.
    destruct id; reflexivity.
  - intro Hp. unfold Validate, ObjectId, Get. rewrite Hp. reflexivity.
Qed.

(** The theorem at a Document with a well-formed identifier and an
    [_expiresAt] that is nil. *)
Lemma Validate_verdict_witness :
  Validate reflibs.codec reflibs.libs
    {| msg := None;
       fields := Some [ ("_id", VString "123e4567-e89b-12d3-a456-426614174000");
                        ("_expiresAt", Nil) ] |} =
  Ok (Some (ErrUser "invalid _expiresAt"),
      {| msg := None;
         fields := Some [ ("_id", VString "123e4567-e89b-12d3-a456-426614174000");
                          ("_expiresAt", Nil) ] |}).
Proof.
  exact (proj1 (Validate_verdict reflibs.codec reflibs.libs
                  {| msg := None;
                     fields := Some [ ("_id", VString "123e4567-e89b-12d3-a456-426614174000");
                                      ("_expiresAt", Nil) ] |})
           _ _ eq_refl eq_refl).
Defined.

Lemma wrap64_small (z : Z) :
  (- 9223372036854775808 <= z < 9223372036854775808)%Z -> wrap64 z = z.
Proof.
  intro H. unfold wrap64. rewrite Z.mod_small; lia.
Qed.

(** X20. The time to live of a Document that has an expiration: zero
    once the expiration is before the present instant; otherwise the
    remaining time cut down to whole milliseconds, so that it is zero as
    well when less than a millisecond remains, and never more than what
    remains. *)
Theorem TTL_whole_milliseconds (codec : Codec) (libs : Libs)
  (now : rvalue) (doc doc1 : Document) (m : gomap)
  (fs : list (StructField * rvalue)) :
  mustInitFields codec doc = Ok doc1 ->
  fields doc1 = Some m ->
  mapGet ExpiresAtField m = Some (VStruct TimeT fs) ->
  (Before libs (VStruct TimeT fs) now = true ->
   TTL codec libs now doc = Ok (0%Z, doc1)) /\
  (Before libs (VStruct TimeT fs) now = false ->
   (0 <= Sub libs (VStruct TimeT fs) now < 9223372036854775808)%Z ->
   exists t,
     TTL codec libs now doc = Ok (t, doc1) /\
     (0 <= t <= Sub libs (VStruct TimeT fs) now)%Z /\
     (Sub libs (VStruct TimeT fs) now - t < 1000000)%Z /\
     (t mod 1000000 = 0)%Z /\
     (t = 0 <-> Sub libs (VStruct TimeT fs) now < 1000000)%Z).
Proof.
  intros Hi Hf He.
  assert (HE : ExpiresAt codec doc = Ok (Some (VStruct TimeT fs), doc1)).
  { rewrite (ExpiresAt_top_level codec doc doc1 m Hi Hf), He. reflexivity. }
  split.
  - intro Hb. unfold TTL. rewrite HE. cbn [bind]. rewrite Hb. reflexivity.
  - intros Hb Hr. unfold TTL. rewrite HE. cbn [bind]. rewrite Hb.
    set (d := Sub libs (VStruct TimeT fs) now) in *.
    unfold Milliseconds, Millisecond.
    rewrite (Z.quot_div_nonneg d 1000000) by lia.
    pose proof (Z_div_mod_eq_full d 1000000) as Hd.
    pose proof (Z.mod_pos_bound d 1000000 ltac:(lia)) as Hm.
    exists (1000000 * (d / 1000000))%Z.
    split; [rewrite wrap64_small by lia; reflexivity|].
    split; [lia|]. split; [lia|].
    split; [rewrite Z.mul_comm; apply Z_mod_mult|].
    split; intro H.
    + lia.
    + rewrite (Z.div_small d 1000000) by lia. reflexivity.
Qed.

(** The theorem on the stand-in clock: an expiration 2.5 ms ahead gives
    2 ms, one that is 0.9 ms ahead gives zero. *)
Lemma TTL_whole_milliseconds_witness :
  TTL reflibs.codec reflibs.libs (Time 0 1000000000)
    {| msg := None; fields := Some [ ("_expiresAt", Time 0 1002500000) ] |} =
    Ok (2000000%Z,
        {| msg := None; fields := Some [ ("_expiresAt", Time 0 1002500000) ] |}) /\
  exists t,
    TTL reflibs.codec reflibs.libs (Time 0 1000000000)
      {| msg := None; fields := Some [ ("_expiresAt", Time 0 1000900000) ] |} =
      Ok (t, {| msg := None; fields := Some [ ("_expiresAt", Time 0 1000900000) ] |}) /\
    t = 0%Z.
Proof.
  split; [reflexivity|].
  destruct (proj2 (TTL_whole_milliseconds reflibs.codec reflibs.libs
                     (Time 0 1000000000)
                     {| msg := None;
                        fields := Some [ ("_expiresAt", Time 0 1000900000) ] |}
                     _ _ _ eq_refl eq_refl eq_refl) eq_refl
             ltac:(cbn; lia))
    as [t [Ht [_ [_ [_ Hz]]]]].
  exists t. split; [exact Ht|]. apply (proj2 Hz). cbn. lia.
Defined.

(** ** Documents hold canonical values *)

Lemma canonical_mapGet (k : string) (m : gomap) (v : rvalue) :
  canonical (VMapSI m) = true -> mapGet k m = Some v -> canonical v = true.
Proof.
  intro Hm. apply canonical_map in Hm. destruct Hm as [_ Hm].
  induction m as [|[k' v'] m IH]; simpl; intro H; [discriminate H|].
  simpl in Hm. apply andb_true_iff in Hm. destruct Hm as [H1 H2].
  destruct (String.eqb k k').
  - inversion H. subst v'. exact H1.
  - exact (IH H2 H).
Qed.

Lemma canonical_child (k : string) (m : gomap) :
  canonical (VMapSI m) = true ->
  canonical (VMapSI match mapGet k m with
                    | Some f => match mapOf f with Some c => c | None => [] end
                    | None => []
                    end) = true.
Proof.
  intro Hm. destruct (mapGet k m) as [f|] eqn:Eg; [|reflexivity].
  pose proof (canonical_mapGet k m f Hm Eg) as Hf.
  destruct f as [ | | | | | | | | | | | | | | kt et c | | ]; try reflexivity.
  destruct kt; try reflexivity. destruct et; try reflexivity. exact Hf.
Qed.

Lemma canonical_setPath (p : list string) (v : rvalue) :
  canonical v = true ->
  forall m, canonical (VMapSI m) = true ->
            canonical (VMapSI (setPath p v m)) = true.
Proof.
  intro Hv. induction p as [|s rest IH]; intros m Hm; [exact Hm|].
  destruct rest as [|s2 r].
  - cbn [setPath]. apply canonical_mapSet; assumption.
  - rewrite setPath_cons. apply canonical_mapSet; [|exact Hm].
    apply IH. apply canonical_child. exact Hm.
Qed.

Lemma canonical_pathLookup (p : list string) (v : rvalue) :
  forall m, canonical (VMapSI m) = true ->
            pathLookup p m = Some v -> canonical v = true.
Proof.
  induction p as [|s rest IH]; intros m Hm H; [discriminate H|].
  destruct rest as [|s2 r].
  - cbn [pathLookup] in H. exact (canonical_mapGet s m v Hm H).
  - rewrite pathLookup_cons in H.
    destruct (mapGet s m) as [f|] eqn:Eg; [|discriminate H].
    pose proof (canonical_mapGet s m f Hm Eg) as Hf.
    destruct (mapOf f) as [c|] eqn:Ec; [|discriminate H].
    destruct f as [ | | | | | | | | | | | | | | kt et c' | | ];
      try discriminate Ec.
    destruct kt; try discriminate Ec. destruct et; try discriminate Ec.
    inversion Ec. subst c'. exact (IH c Hf H).
Qed.

Lemma wellFormed_init (codec : Codec) (d d' : Document) :
  wellFormed codec d -> mustInitFields codec d = Ok d' ->
  exists m, fields d' = Some m /\ canonical (VMapSI m) = true.
Proof.
  unfold wellFormed, mustInitFields, initFields. intros Hw H.
  destruct (fields d) as [m|] eqn:Ef.
  - inversion H. subst d'. exists m. split; assumption.
  - destruct (msg d) as [b|] eqn:Em.
    + destruct (unmarshal codec b) as [decoded|e|] eqn:Eu; try discriminate H.
      pose proof (Hw b decoded eq_refl Eu) as Hr.
      destruct (Normalize (VMapSI decoded)) as [y|e|] eqn:En;
        try discriminate H.
      pose proof (proj1 (Normalize_canonical_both (VMapSI decoded)) Hr y En)
        as Hc.
      destruct y as [ | | | | | | | | | | | | | | kt et c | | ];
        try discriminate H.
      destruct kt; try discriminate H. destruct et; try discriminate H.
      inversion H. exists c. split; [reflexivity|exact Hc].
    + inversion H. exists []. split; reflexivity.
Qed.

Lemma wellFormed_Set (codec : Codec) (name : string) (value : rvalue)
  (d d' : Document) :
  wellFormed codec d -> regular false value = true ->
  Set_ codec name value d = Ok d' ->
  exists m, fields d' = Some m /\ canonical (VMapSI m) = true.
Proof.
  intros Hw Hr Hs.
  destruct (mustInitFields codec d) as [d1|e|] eqn:Hi;
    try (unfold Set_ in Hs; rewrite Hi in Hs; discriminate Hs).
  destruct (wellFormed_init codec d d1 Hw Hi) as [m [Hf Hc]].
  destruct (Normalize value) as [nv|e|] eqn:Hn.
  - rewrite (Set_setPath codec name value nv d d1 m Hi Hf Hn) in Hs.
    destruct (marshal codec _) as [b|e|]; try discriminate Hs.
    inversion Hs. eexists. split; [reflexivity|].
    apply canonical_setPath; [|exact Hc].
    exact (proj1 (Normalize_canonical_both value) Hr nv Hn).
  - unfold Set_ in Hs. rewrite Hi in Hs. cbn [bind] in Hs. rewrite Hn in Hs.
    inversion Hs. subst d'. exists m. split; assumption.
  - unfold Set_ in Hs. rewrite Hi in Hs. cbn [bind] in Hs. rewrite Hn in Hs.
    discriminate Hs.
Qed.

(** X21. Documents hold canonical values only.  A Document whose field
    map is canonical, or is still to be decoded from bytes that the codec
    decodes to regular values, stays so: materialising it, assigning to
    it with [Set] or [SetAll] values that are regular, and copying it
    leave a canonical field map. *)
Theorem field_map_stays_canonical (codec : Codec) (d d' : Document) :
  wellFormed codec d ->
  wellFormed codec NewDocument /\
  wellFormed codec (Copy d) /\
  (mustInitFields codec d = Ok d' ->
   wellFormed codec d' /\ fields d' <> None) /\
  (forall name value,
     regular false value = true ->
     Set_ codec name value d = Ok d' ->
     wellFormed codec d' /\ fields d' <> None) /\
  (forall values,
     forallb (fun kv => regular false (snd kv)) values = true ->
     SetAll codec values d = Ok d' ->
     wellFormed codec d').
Proof.
  intro Hw.
  assert (Hfrom : forall x, (exists m, fields x = Some m /\
                                       canonical (VMapSI m) = true) ->
                            wellFormed codec x /\ fields x <> None).
  { intros x [m [Hf Hc]]. unfold wellFormed. rewrite Hf.
    split; [exact Hc|discriminate]. }
  split; [intros b decoded H; discriminate H|].
  split.
  { unfold wellFormed, Copy, CopyMap in *. cbn [fields msg].
    destruct (fields d) as [m|]; exact Hw. }
  split; [intro Hi; exact (Hfrom d' (wellFormed_init codec d d' Hw Hi))|].
  split.
  { intros name value Hr Hs.
    exact (Hfrom d' (wellFormed_Set codec name value d d' Hw Hr Hs)). }
  intros values. revert d Hw.
  induction values as [|[k v] rest IH]; intros d Hw Hr H.
  - inversion H. subst d'. exact Hw.
  - cbn [forallb snd] in Hr. apply andb_true_iff in Hr. destruct Hr as [Hv Hr].
    cbn [SetAll] in H.
    destruct (Set_ codec k v d) as [d1|e|] eqn:Es; try discriminate H.
    cbn [bind] in H.
    exact (IH d1 (proj1 (Hfrom d1 (wellFormed_Set codec k v d d1 Hw Hv Es)))
             Hr H).
Qed.

(** The theorem under the reference codec: a record assigned into the
    empty Document. *)
Lemma field_map_stays_canonical_witness :
  exists d',
    Set_ refcodec.codec "r" recordEmbedded NewDocument = Ok d' /\
    wellFormed refcodec.codec d'.
Proof.
  eexists. split; [reflexivity|].
  refine (proj1 (proj1 (proj2 (proj2 (proj2
            (field_map_stays_canonical refcodec.codec NewDocument _ _))))
            "r" recordEmbedded eq_refl eq_refl)).
  intros b decoded H. discriminate H.
Defined.

(** X22. What [Get] returns from such a Document is canonical: nil, a
    boolean, an [int64], a [uint64], a [float64], a string, a byte
    sequence, a list or a map of canonical values, a [time.Time] or a
    [Value]. *)
Theorem Get_returns_canonical (codec : Codec) (name : string)
  (d d' : Document) (v : rvalue) :
  wellFormed codec d ->
  Get codec name d = Ok (v, d') ->
  canonical v = true.
Proof.
  intros Hw H.
  destruct (mustInitFields codec d) as [d1|e|] eqn:Hi;
    try (unfold Get in H; rewrite Hi in H; discriminate H).
  destruct (wellFormed_init codec d d1 Hw Hi) as [m [Hf Hc]].
  rewrite (proj2 (Has_Get_pathLookup codec name d d1 m Hi Hf)) in H.
  inversion H as [[Hv Hd]].
  destruct (pathLookup (Split "." name) m) as [x|] eqn:Ep; [|reflexivity].
  exact (canonical_pathLookup (Split "." name) x m Hc Ep).
Qed.

(** The theorem at a Document decoded from the bytes of
    [{"a": {"b": {"c": 5}}}], where the decoder yields an [int8] and
    [Get] an [int64]. *)
Lemma Get_returns_canonical_witness :
  unmarshal refcodec.codec
    [ "129"%byte; "161"%byte; "a"%byte; "129"%byte; "161"%byte; "b"%byte;
      "129"%byte; "161"%byte; "c"%byte; "005"%byte ] =
    Ok [ ("a", VMapSI [ ("b", VMapSI [ ("c", VInt W8 5) ]) ]) ] /\
  Get refcodec.codec "a.b.c" {| msg := msg docABC; fields := None |} =
    Ok (VInt W64 5, docABC) /\
  canonical (VInt W64 5) = true.
Proof.
  split; [reflexivity|]. split; [reflexivity|].
  refine (Get_returns_canonical refcodec.codec "a.b.c"
            {| msg := msg docABC; fields := None |} docABC (VInt W64 5)
            _ eq_refl).
  intros b decoded Hb Hu. inversion Hb. subst b.
  vm_compute in Hu. inversion Hu. reflexivity.
Defined.

(** ** Documents that do not materialise *)

(** X23. [Decode] accepts any bytes; the failure comes at the first
    access, as a panic and never as an error.  Materialising panics
    exactly when the field map is still to be decoded from bytes that the
    codec does not decode, or decodes to a map that does not normalise
    (normalising a map gives a map: the panic for a result that is not a
    map is never reached); and then [Has], [Get], [Set], [ObjectId],
    [ExpiresAt], [TTL] and [Validate] panic, and [SetAll] unless it is
    given no entry. *)
Theorem materialisation_failure (codec : Codec) (d : Document) :
  (mustInitFields codec d = Panic <->
   fields d = None /\
   exists b, msg d = Some b /\
             forall decoded y, unmarshal codec b = Ok decoded ->
                               Normalize (VMapSI decoded) <> Ok y) /\
  (forall e, mustInitFields codec d <> Err e) /\
  (mustInitFields codec d = Panic ->
   forall name value libs now,
     Has codec name d = Panic /\
     Get codec name d = Panic /\
     Set_ codec name value d = Panic /\
     ObjectId codec d = Panic /\
     ExpiresAt codec d = Panic /\
     TTL codec libs now d = Panic /\
     Validate codec libs d = Panic /\
     (forall rest, SetAll codec ((name, value) :: rest) d = Panic) /\
     SetAll codec [] d = Ok d).
Proof.
  split; [|split].
  - unfold mustInitFields, initFields. split.
    + intro H. destruct (fields d) as [m|]; [discriminate H|].
      split; [reflexivity|].
      destruct (msg d) as [b|]; [|discriminate H].
      exists b. split; [reflexivity|]. intros decoded y Eu En.
      rewrite Eu in H. unfold VMapSI in En, H.
      rewrite Normalize_map in En, H.
      change (negb (Kind_eqb (KindOf TString) KString)) with false in En, H.
      cbv iota in En, H.
      destruct (mapLoop Normalize decoded []) as [m'|e|];
        try discriminate En.
      discriminate H.
    + intros [Hf [b [Hm Hno]]]. rewrite Hf, Hm.
      destruct (unmarshal codec b) as [decoded|e|] eqn:Eu; try reflexivity.
      destruct (Normalize (VMapSI decoded)) as [y|e|] eqn:En; try reflexivity.
      exfalso. exact (Hno decoded y eq_refl En).
  - intros e H. unfold mustInitFields in H.
    destruct (initFields codec d); discriminate H.
  - intros Hp name value libs now.
    assert (HG : Get codec name d = Panic)
      by (unfold Get; rewrite Hp; reflexivity).
    assert (HGo : Get codec ObjectIdField d = Panic)
      by (unfold Get; rewrite Hp; reflexivity).
    assert (HGe : Get codec ExpiresAtField d = Panic)
      by (unfold Get; rewrite Hp; reflexivity).
    assert (HS : Set_ codec name value d = Panic)
      by (unfold Set_; rewrite Hp; reflexivity).
    repeat split.
    + unfold Has. rewrite Hp. reflexivity.
    + exact HG.
    + exact HS.
    + unfold ObjectId. rewrite HGo. reflexivity.
    + unfold ExpiresAt. rewrite HGe. reflexivity.
    + unfold TTL, ExpiresAt. rewrite HGe. reflexivity.
    + unfold Validate, ObjectId. rewrite HGo. reflexivity.
    + intro rest. cbn [SetAll]. rewrite HS. reflexivity.
Qed.

(** The theorem under the reference codec, at the Document decoded from
    the byte [0xc1]. *)
Lemma materialisation_failure_witness :
  Decode (Some [ "193"%byte ]) = Ok corruptDoc /\
  Has refcodec.codec "a" corruptDoc = Panic /\
  Validate refcodec.codec reflibs.libs corruptDoc = Panic.
Proof.
  split; [reflexivity|].
  pose proof (proj2 (proj2 (materialisation_failure refcodec.codec corruptDoc))
                eq_refl "a" Nil reflibs.libs Nil) as H.
  split; [exact (proj1 H)|].
  exact (proj1 (proj2 (proj2 (proj2 (proj2 (proj2 (proj2 H))))))).
Defined.

(** ** Index descriptors *)

Import index.

(** C9 as stated fails: an [IndexInfo] has the two fields [Field] and
    [Type]; no collection name can be read off it. *)
Lemma IndexInfo_counterexample : ~ carries_collection_field_kind.
Proof.
  intros [coll H].
  destruct (H "a" "f" IndexSingleField) as [i [Hc [Hf Hk]]].
  destruct (H "b" "f" IndexSingleField) as [j [Hc' [Hf' Hk']]].
  destruct i as [fi ki], j as [fj kj]. simpl in Hf, Hk, Hf', Hk'.
  subst fi ki fj kj. rewrite Hc in Hc'. discriminate Hc'.
Qed.

(** C9, amended: an [IndexInfo] is a record of two pieces of metadata, the
    field name and the index kind, and nothing else; the collection name
    is carried, with the field name, by the [indexBase] of an index. *)
Theorem IndexInfo_carries_field_and_kind :
  (forall f k, Field (mkIndexInfo f k) = f /\ Type_ (mkIndexInfo f k) = k) /\
  (forall i : IndexInfo, i = mkIndexInfo (Field i) (Type_ i)) /\
  (forall c f, Collection (mkIndexBase c f) = c /\ Field_ (mkIndexBase c f) = f).
Proof.
  split; [|split].
  - intros f k. split; reflexivity.
  - intros [f k]. reflexivity.
  - intros c f. split; reflexivity.
Qed.

(** C10: whatever the collection, the field and the transaction,
    [CreateBadgerIndex] returns nil for the geospatial kind and an index
    bound to the collection, the field and the transaction for the
    single-field kind, which is the only kind it returns an index for. *)
Theorem CreateBadgerIndex_kinds (Txn : Type) (collection field : string)
  (txn : Txn) :
  CreateBadgerIndex collection field IndexGeoSpatial txn = None /\
  (exists idx,
     CreateBadgerIndex collection field IndexSingleField txn = Some idx /\
     Collection (base idx) = collection /\
     Field_ (base idx) = field /\
     index.txn idx = txn) /\
  (forall k, k <> IndexSingleField ->
     CreateBadgerIndex collection field k txn = None).
Proof.
  split; [reflexivity|]. split.
  - eexists. split; [reflexivity|]. repeat split.
  - intros k Hk. unfold CreateBadgerIndex.
    destruct (Z.eqb k IndexSingleField) eqn:E; [|reflexivity].
    apply Z.eqb_eq in E. contradiction.
Qed.

(** The theorem at the collection [users], the field [age] and the
    index kind 7, which is neither of the two declared. *)
Lemma CreateBadgerIndex_kinds_witness :
  CreateBadgerIndex "users" "age" IndexGeoSpatial tt = None /\
  CreateBadgerIndex "users" "age" 7%Z tt = None.
Proof.
  destruct (CreateBadgerIndex_kinds unit "users" "age" tt) as [H1 [_ H3]].
  split; [exact H1|].
  apply H3. unfold IndexSingleField. lia.
Defined.
